(** * Citation formatting of the document search assistant

    A shallow embedding of [parse_external_link] and [format_citations]
    from [main.py], with the Python primitives they call, and the
    properties of the citation formatter proved on it.

    Modelling conventions.
    - A Python [str] is a Rocq [string]; a character is read as the
      Unicode code point below 256 with the same number.  Text with
      other code points is outside the model.
    - A Python [int] is a [Z].
    - The [references] dict is an association list in insertion order,
      which is the order Python iterates a dict in.
    - Exceptions are values of [Py.exn]; code that can raise returns a
      [Py.result].
    - Two limits of the interpreter are left out of the first model and
      brought in by the module [Full]: the cap on the number of digits
      [int] accepts, and the refusal of [urllib.parse.quote] to encode a
      lone surrogate.  Where neither limit is met the two models agree
      ([full_format_citations_agrees]). *)

From Stdlib Require Import String Ascii List ZArith NArith Lia Bool DecimalString DecimalZ.
Import ListNotations.

Local Open Scope string_scope.
Local Open Scope Z_scope.

(** ** Python primitives *)

Module Py.

Inductive exn : Type :=
| ValueError
| IndexError
| UnicodeEncodeError.

Inductive result (A : Type) : Type :=
| OK (a : A)
| Raise (e : exn).

Arguments OK {A} a.
Arguments Raise {A} e.

Definition bind {A B : Type} (m : result A) (k : A -> result B) : result B :=
  match m with
  | OK a => k a
  | Raise e => Raise e
  end.

(** [try: body / except ValueError: handler]; [UnicodeEncodeError] is a
    [ValueError] and is handled too, any other exception leaves the
    statement. *)
Definition try_except_ValueError {A : Type} (body handler : result A) : result A :=
  match body with
  | Raise ValueError | Raise UnicodeEncodeError => handler
  | other => other
  end.

(** A list comprehension [[f x for x in l]] whose element expression
    can raise: elements are evaluated left to right. *)
Fixpoint comprehension {A B : Type} (f : A -> result B) (l : list A) : result (list B) :=
  match l with
  | [] => OK []
  | x :: xs =>
      bind (f x) (fun y => bind (comprehension f xs) (fun ys => OK (y :: ys)))
  end.

Definition len {A : Type} (l : list A) : Z := Z.of_nat (List.length l).

(** [l[i]]: a negative index counts from the end, an index outside the
    list raises [IndexError]. *)
Definition index {A : Type} (l : list A) (i : Z) : result A :=
  let j := if i <? 0 then i + len l else i in
  if j <? 0 then Raise IndexError
  else match nth_error l (Z.to_nat j) with
       | Some x => OK x
       | None => Raise IndexError
       end.

(** [c in s] for a one-character [c]. *)
Fixpoint contains (c : ascii) (s : string) : bool :=
  match s with
  | EmptyString => false
  | String a s' => Ascii.eqb a c || contains c s'
  end.

(** [s.split(sep)] for a one-character separator. *)
Fixpoint split (sep : ascii) (s : string) : list string :=
  match s with
  | EmptyString => [EmptyString]
  | String a s' =>
      if Ascii.eqb a sep then EmptyString :: split sep s'
      else match split sep s' with
           | [] => [String a EmptyString]
           | p :: ps => String a p :: ps
           end
  end.

(** [sep.join(l)]. *)
Definition join (sep : string) (l : list string) : string := String.concat sep l.

Definition code (c : ascii) : N := N_of_ascii c.

(** Characters [str.strip()] removes. *)
Definition isspace (c : ascii) : bool :=
  let n := code c in
  ((9 <=? n) && (n <=? 13) || (28 <=? n) && (n <=? 32) || (n =? 133) || (n =? 160))%N.

(** Characters [int] skips around the number: the C locale's white
    space, and the two characters above 126 it first turns into a
    space. *)
Definition int_space (c : ascii) : bool :=
  let n := code c in
  ((9 <=? n) && (n <=? 13) || (n =? 32) || (n =? 133) || (n =? 160))%N.

Fixpoint lstrip_by (p : ascii -> bool) (s : string) : string :=
  match s with
  | EmptyString => EmptyString
  | String a s' => if p a then lstrip_by p s' else s
  end.

Fixpoint rstrip_by (p : ascii -> bool) (s : string) : string :=
  match s with
  | EmptyString => EmptyString
  | String a s' =>
      match rstrip_by p s' with
      | EmptyString => if p a then EmptyString else String a EmptyString
      | r => String a r
      end
  end.

Definition strip_by (p : ascii -> bool) (s : string) : string :=
  rstrip_by p (lstrip_by p s).

(** [s.strip()]. *)
Definition strip (s : string) : string := strip_by isspace s.

Definition is_digit (c : ascii) : bool :=
  ((48 <=? code c) && (code c <=? 57))%N.

Definition digit_value (c : ascii) : Z := Z.of_N (code c) - 48.

(** The digits of a decimal literal: a digit, then digits with single
    underscores allowed between two digits.  [prev_digit] tells whether
    the character before was a digit. *)
Fixpoint int_digits (s : string) (prev_digit : bool) (acc : Z) : option Z :=
  match s with
  | EmptyString => if prev_digit then Some acc else None
  | String a s' =>
      if is_digit a then int_digits s' true (10 * acc + digit_value a)
      else if Ascii.eqb a "_" && prev_digit then int_digits s' false acc
      else None
  end.

Definition int_signed (s : string) : option Z :=
  match s with
  | String "+" s' => int_digits s' false 0
  | String "-" s' => option_map Z.opp (int_digits s' false 0)
  | _ => int_digits s false 0
  end.

(** [int(s)] in base ten. *)
Definition int (s : string) : result Z :=
  match int_signed (strip_by int_space s) with
  | Some z => OK z
  | None => Raise ValueError
  end.

(** [str(z)]. *)
Definition str (z : Z) : string := NilZero.string_of_int (Z.to_int z).

(** *** [urllib.parse.quote] *)

(** UTF-8 bytes of a code point below 256. *)
Definition utf8_char (c : ascii) : list N :=
  let n := code c in
  if (n <? 128)%N then [n] else [192 + n / 64; 128 + n mod 64]%N.

Fixpoint utf8 (s : string) : list N :=
  match s with
  | EmptyString => []
  | String a s' => (utf8_char a ++ utf8 s')%list
  end.

(** Letters, digits and [_.-~] are never quoted. *)
Definition always_safe (b : N) : bool :=
  ((65 <=? b) && (b <=? 90) || (97 <=? b) && (b <=? 122)
   || (48 <=? b) && (b <=? 57)
   || (b =? 95) || (b =? 46) || (b =? 45) || (b =? 126))%N.

Definition byte_in (b : N) (safe : string) : bool :=
  (b <? 128)%N && contains (ascii_of_N b) safe.

Definition hex_digit (n : N) : ascii :=
  if (n <? 10)%N then ascii_of_N (48 + n) else ascii_of_N (55 + n).

(** ['%{:02X}'.format(b)], or the byte itself when it is safe. *)
Definition quote_byte (safe : string) (b : N) : string :=
  if always_safe b || byte_in b safe then String (ascii_of_N b) EmptyString
  else String "%" (String (hex_digit (b / 16)) (String (hex_digit (b mod 16)) EmptyString)).

Fixpoint quote_bytes (safe : string) (bs : list N) : string :=
  match bs with
  | [] => EmptyString
  | b :: bs' => quote_byte safe b ++ quote_bytes safe bs'
  end.

(** [urllib.parse.quote(s, safe=safe)]. *)
Definition quote (s : string) (safe : string) : string :=
  quote_bytes safe (utf8 s).

End Py.

Import Py.

Notation "x <- m ;; k" := (Py.bind m (fun x => k))
  (at level 61, m at next level, right associativity).

(** ** The program *)

(** A reference of the answer: only its [uri] is read. *)
Record SourceRef : Type := { uri : string }.

Definition nl : string := String (ascii_of_nat 10) EmptyString.

(** [re.match(r'^(gs)://', url)], reduced to its group 1. *)
Definition protocol_match (url : string) : option string :=
  if String.prefix "gs://" url then Some "gs" else None.

(** [re.sub(r'^(gs)://', repl, url)]: the pattern is anchored, so it
    can match at the start only. *)
Definition protocol_sub (repl url : string) : string :=
  if String.prefix "gs://" url
  then repl ++ String.substring 5 (String.length url - 5) url
  else url.

Definition parse_external_link (url : string) : string :=
  match url with
  | EmptyString => url
  | _ =>
      let protocol := protocol_match url in
      match protocol with
      | Some "gs" => protocol_sub "https://storage.cloud.google.com/" url
      | _ => url
      end
  end.

(** The variables of [format_citations] that live across the loop. *)
Record state : Type := {
  references : list (Z * string);
  reference_counter : Z;
  formatted_text : string
}.

Definition add_text (st : state) (s : string) : state :=
  {| references := references st;
     reference_counter := reference_counter st;
     formatted_text := formatted_text st ++ s |}.

(** [url in references.values()]. *)
Definition in_values (url : string) (refs : list (Z * string)) : bool :=
  existsb (fun kv => String.eqb (snd kv) url) refs.

(** [references[k] = v]. *)
Fixpoint dict_set (k : Z) (v : string) (d : list (Z * string)) : list (Z * string) :=
  match d with
  | [] => [(k, v)]
  | (k', v') :: d' => if k' =? k then (k, v) :: d' else (k', v') :: dict_set k v d'
  end.

(** The search loop over [references.items()], left at the first hit. *)
Fixpoint find_ref_id (url : string) (items : list (Z * string)) : option Z :=
  match items with
  | [] => None
  | (ref_id, ref_url) :: items' =>
      if String.eqb ref_url url then Some ref_id else find_ref_id url items'
  end.

(** One turn of the loop over [ref_numbers]. *)
Definition cite (urls : list SourceRef) (ref_num : Z) (acc : state * list string)
  : result (state * list string) :=
  let '(st, citation_numbers) := acc in
  if (ref_num <=? len urls) && (ref_num >? 0) then
    r <- index urls (ref_num - 1) ;;
    let url := parse_external_link (uri r) in
    if negb (in_values url (references st)) then
      OK ({| references := dict_set (reference_counter st) url (references st);
             reference_counter := reference_counter st + 1;
             formatted_text := formatted_text st |},
          (citation_numbers ++ [str (reference_counter st)])%list)
    else
      OK (st, match find_ref_id url (references st) with
              | Some ref_id => (citation_numbers ++ [str ref_id])%list
              | None => citation_numbers
              end)
  else OK acc.

Fixpoint cite_all (urls : list SourceRef) (ref_numbers : list Z) (acc : state * list string)
  : result (state * list string) :=
  match ref_numbers with
  | [] => OK acc
  | ref_num :: rest => acc' <- cite urls ref_num acc ;; cite_all urls rest acc'
  end.

(** [[int(ref.strip()) for ref in reference_str.split(',')]]. *)
Definition parse_marker (reference_str : string) : result (list Z) :=
  comprehension (fun ref => int (strip ref)) (split "," reference_str).

(** The body of the [try]. *)
Definition try_body (urls : list SourceRef) (st : state) (part reference_str : string)
  : result state :=
  ref_numbers <- parse_marker reference_str ;;
  acc <- cite_all urls ref_numbers (st, []) ;;
  let '(st', citation_numbers) := acc in
  match citation_numbers with
  | _ :: _ =>
      tail <- index (split "]" part) 1 ;;
      OK (add_text st' ("[" ++ join ", " citation_numbers ++ "]" ++ tail))
  | [] =>
      tail <- index (split "]" part) 1 ;;
      OK (add_text st' ("[" ++ reference_str ++ "]" ++ tail))
  end.

(** One turn of the loop over [parts[1:]].  Only [int] raises
    [ValueError], and it does so before the loop variables are touched,
    so the handler runs on the state the [try] started with. *)
Definition process_part (urls : list SourceRef) (st : state) (part : string) : result state :=
  if contains "]" part then
    reference_str <- index (split "]" part) 0 ;;
    try_except_ValueError
      (try_body urls st part reference_str)
      (OK (add_text st ("[" ++ part)))
  else OK (add_text st ("[" ++ part)).

Fixpoint process_parts (urls : list SourceRef) (st : state) (parts : list string) : result state :=
  match parts with
  | [] => OK st
  | part :: rest => st' <- process_part urls st part ;; process_parts urls st' rest
  end.

(** One line of the list: [f"[{ref_id}] {encoded_url}\n"]. *)
Definition reference_line (entry : Z * string) : string :=
  let encoded_url := quote (snd entry) ":/" in
  "[" ++ str (fst entry) ++ "] " ++ encoded_url ++ nl.

Fixpoint reference_lines (items : list (Z * string)) : string :=
  match items with
  | [] => EmptyString
  | entry :: items' => reference_line entry ++ reference_lines items'
  end.

Definition references_heading : string := nl ++ nl ++ "**References:**" ++ nl.

Definition initial_state (first : string) : state :=
  {| references := []; reference_counter := 1; formatted_text := first |}.

(** The state after the loop over the parts of [text]. *)
Definition run_parts (text : string) (urls : list SourceRef) : result state :=
  let parts := split "[" text in
  first <- index parts 0 ;;
  process_parts urls (initial_state first) (tl parts).

Definition format_citations (text : string) (urls : list SourceRef) : result string :=
  st <- run_parts text urls ;;
  match references st with
  | _ :: _ => OK (formatted_text st ++ references_heading ++ reference_lines (references st))
  | [] => OK (formatted_text st)
  end.

(** ** Vocabulary of the statements *)

(** The guard of the loop over [ref_numbers]. *)
Definition valid_index (urls : list SourceRef) (ref_num : Z) : bool :=
  (ref_num <=? len urls) && (ref_num >? 0).

(** The normalized URL a valid index stands for. *)
Definition url_at (urls : list SourceRef) (ref_num : Z) : string :=
  match index urls (ref_num - 1) with
  | OK r => parse_external_link (uri r)
  | Raise _ => EmptyString
  end.

(** The URLs cited by the valid indices of a marker, in order. *)
Definition marker_urls (urls : list SourceRef) (ref_numbers : list Z) : list string :=
  map (url_at urls) (filter (valid_index urls) ref_numbers).

(** The URLs cited by a tail segment: none unless it holds a [']'] and
    the text before it parses as integers. *)
Definition part_urls (urls : list SourceRef) (part : string) : list string :=
  match split "]" part with
  | reference_str :: _ :: _ =>
      match parse_marker reference_str with
      | OK ref_numbers => marker_urls urls ref_numbers
      | Raise _ => []
      end
  | _ => []
  end.

Definition cited_urls (urls : list SourceRef) (parts : list string) : list string :=
  flat_map (part_urls urls) parts.

(** The distinct elements of [us] in the order they first occur, after
    those of [seen]. *)
Fixpoint first_seen_from (seen us : list string) : list string :=
  match us with
  | [] => seen
  | u :: us' =>
      if existsb (fun v => String.eqb v u) seen then first_seen_from seen us'
      else first_seen_from (seen ++ [u]) us'
  end.

Definition first_seen (us : list string) : list string := first_seen_from [] us.

(** The table that numbers a list of URLs from [k] on. *)
Fixpoint enumerate_from (k : Z) (seen : list string) : list (Z * string) :=
  match seen with
  | [] => []
  | u :: seen' => (k, u) :: enumerate_from (k + 1) seen'
  end.

Definition enumerate (seen : list string) : list (Z * string) := enumerate_from 1 seen.

(** The 1-based position of the first [u] in [seen]. *)
Fixpoint number_of (u : string) (seen : list string) : Z :=
  match seen with
  | [] => 1
  | v :: seen' => if String.eqb v u then 1 else number_of u seen' + 1
  end.

(** The state holds the table of [seen]: its URLs numbered from 1, none
    twice, and the counter one past the last number. *)
Definition table_of (st : state) (seen : list string) : Prop :=
  references st = enumerate seen
  /\ NoDup seen
  /\ reference_counter st = len seen + 1.

(** The text between the first and the second [']'] of a segment. *)
Definition second_piece (part : string) : string :=
  match split "]" part with
  | _ :: tail :: _ => tail
  | _ => EmptyString
  end.

(** What a tail segment becomes when it is not renumbered: the three
    branches of the loop that do not write citation numbers. *)
Definition pass_through (part : string) : string :=
  match split "]" part with
  | reference_str :: tail :: _ =>
      match parse_marker reference_str with
      | OK _ => "[" ++ reference_str ++ "]" ++ tail
      | Raise _ => "[" ++ part
      end
  | _ => "[" ++ part
  end.

(** What a tail segment becomes under the table of [seen]: a segment
    that cites URLs has its marker replaced by their numbers. *)
Definition rewritten (seen : list string) (urls : list SourceRef) (part : string) : string :=
  match part_urls urls part with
  | [] => pass_through part
  | us => "[" ++ join ", " (map (fun u => str (number_of u seen)) us) ++ "]" ++ second_piece part
  end.

Fixpoint concat_map (f : string -> string) (l : list string) : string :=
  match l with
  | [] => EmptyString
  | x :: xs => f x ++ concat_map f xs
  end.

(** The references of the worked example. *)
Definition example_refs : list SourceRef :=
  [ {| uri := "gs://bucket/a.pdf" |}; {| uri := "https://example.com/b" |} ].

Fixpoint all_chars (q : ascii -> bool) (s : string) : bool :=
  match s with
  | EmptyString => true
  | String a s' => q a && all_chars q s'
  end.

(** A string of decimal digits. *)
Definition all_digits (s : string) : bool := all_chars is_digit s.

(** A token made of a minus sign and digits. *)
Definition negative_token (digits : string) : string := String "-" digits.

(** The characters [quote] leaves as they are with [safe=':/']: ASCII
    letters and digits, [_.-~], and the two safe characters. *)
Definition kept_by_quote (a : ascii) : bool :=
  contains a "ABCDEFGHIJKLMNOPQRSTUVWXYZabcdefghijklmnopqrstuvwxyz0123456789_.-~:/".



(** ** Configuration and client *)

(** The three settings read from the environment; [os.environ.get]
    gives [None] for a variable that is not set. *)
Record config : Type := {
  PROJECT_ID : option string;
  LOCATION : string;
  DATA_STORE_ID : option string
}.

(** [os.environ.get(key, default)]. *)
Definition environ_get (environ : string -> option string) (key default : string) : string :=
  match environ key with
  | Some v => v
  | None => default
  end.

Definition load_config (environ : string -> option string) : config :=
  {| PROJECT_ID := environ "PROJECT_ID";
     LOCATION := environ_get environ "LOCATION" "global";
     DATA_STORE_ID := environ "DATA_STORE_ID" |}.

(** Truth value of a string that may be [None]. *)
Definition truthy (v : option string) : bool :=
  match v with
  | Some (String _ _) => true
  | _ => false
  end.

(** The check at import: [if not all([PROJECT_ID, DATA_STORE_ID]): raise
    ValueError(...)]. *)
Definition validate_config (cfg : config) : result config :=
  if negb (forallb truthy [PROJECT_ID cfg; DATA_STORE_ID cfg]) then Raise ValueError
  else OK cfg.

Definition startup (environ : string -> option string) : result config :=
  validate_config (load_config environ).

(** The [api_endpoint] that [initialize_client] passes to the client:
    [None] stands for no [ClientOptions]. *)
Definition initialize_client (cfg : config) : option string :=
  if negb (String.eqb (LOCATION cfg) "global")
  then Some (LOCATION cfg ++ "-discoveryengine.googleapis.com")
  else None.

(** ** The chat handlers *)

(** What a call to the search service or to the conversation service
    gives: a value, or an exception [e] known by its text [str(e)]. *)
Inductive outcome (A : Type) : Type :=
| Returned (a : A)
| Failed (text : string).

Arguments Returned {A} a.
Arguments Failed {A} text.

(** The [type] given to [cl.Message]; [DefaultMessage] when none is. *)
Inductive message_type : Type :=
| DefaultMessage
| SystemMessage
| ErrorMessage.

Record Action : Type := {
  name : string;
  label : string;
  value : string;
  payload : list (string * string)
}.

Record Message : Type := {
  content : string;
  type : message_type;
  actions : list Action
}.

(** The part of the reply the handler reads.  [summary_references] is
    [None] when reading the citation metadata raises [AttributeError]. *)
Record Reply : Type := {
  summary_text : string;
  summary_references : option (list SourceRef)
}.

(** The calls made to the service, as they are made:
    [initialize_conversation] with what it gave, and
    [converse_conversation] with the conversation and the query. *)
Inductive call : Type :=
| CreateConversation (created : outcome string)
| ConverseConversation (conversation_name query : string).

(** What the handlers read and write: the ["conversation"] entry of each
    user session, the global fallback, the messages sent to each session
    and the calls made.  A handler touches the names before its first
    [await], so handlers are steps on this state. *)
Record world : Type := {
  user_session : nat -> option string;
  GLOBAL_CONVERSATION_NAME : option string;
  sent : list (nat * Message);
  calls : list call
}.

Definition initial_world : world :=
  {| user_session := fun _ => None;
     GLOBAL_CONVERSATION_NAME := None;
     sent := [];
     calls := [] |}.

(** [cl.user_session.set("conversation", name)] in session [sid]. *)
Definition session_set (sid : nat) (conversation : string) (w : world) : world :=
  {| user_session := fun s => if Nat.eqb s sid then Some conversation else user_session w s;
     GLOBAL_CONVERSATION_NAME := GLOBAL_CONVERSATION_NAME w;
     sent := sent w;
     calls := calls w |}.

Definition set_global (conversation : string) (w : world) : world :=
  {| user_session := user_session w;
     GLOBAL_CONVERSATION_NAME := Some conversation;
     sent := sent w;
     calls := calls w |}.

(** [await cl.Message(...).send()] in session [sid]; sending is taken
    to succeed. *)
Definition send (sid : nat) (m : Message) (w : world) : world :=
  {| user_session := user_session w;
     GLOBAL_CONVERSATION_NAME := GLOBAL_CONVERSATION_NAME w;
     sent := (sent w ++ [(sid, m)])%list;
     calls := calls w |}.

Definition record_call (c : call) (w : world) : world :=
  {| user_session := user_session w;
     GLOBAL_CONVERSATION_NAME := GLOBAL_CONVERSATION_NAME w;
     sent := sent w;
     calls := (calls w ++ [c])%list |}.

Definition system_message (text : string) : Message :=
  {| content := text; type := SystemMessage; actions := [] |}.

Definition error_message (text : string) : Message :=
  {| content := text; type := ErrorMessage; actions := [] |}.

Definition new_conversation_action : Action :=
  {| name := "new_conversation";
     label := "New Conversation";
     value := "new_conversation";
     payload := [("action", "new_conversation")] |}.

(** [created] is what [initialize_conversation] gives when called: the
    name of the new conversation, or the exception. *)
Definition on_chat_start (sid : nat) (created : outcome string) (w : world) : world :=
  let w := record_call (CreateConversation created) w in
  match created with
  | Returned conversation =>
      let w := set_global conversation w in
      let w := session_set sid conversation w in
      send sid (system_message
                  "Welcome to the Document Search Assistant. How can I help you today?") w
  | Failed e =>
      send sid (error_message ("Failed to initialize conversation: " ++ e)) w
  end.

Definition on_new_conversation (sid : nat) (created : outcome string) (w : world) : world :=
  let w := record_call (CreateConversation created) w in
  match created with
  | Returned conversation =>
      let w := set_global conversation w in
      let w := session_set sid conversation w in
      send sid (system_message
                  "Started a new conversation. What would you like to search for?") w
  | Failed e =>
      send sid (error_message ("Failed to start new conversation: " ++ e)) w
  end.

(** The second half of [on_message]: the search on [conversation_name]
    and the answer.  [exception_text] is [str(e)] for an exception of
    the formatter, which the outer handler would report. *)
Definition answer (exception_text : exn -> string) (sid : nat) (query : string)
           (conversation_name : string) (reply : outcome Reply) (w : world) : world :=
  let w := record_call (ConverseConversation conversation_name query) w in
  match reply with
  | Returned response =>
      match summary_references response with
      | Some refs =>
          match format_citations (summary_text response) refs with
          | OK content =>
              send sid {| content := content; type := DefaultMessage;
                          actions := [new_conversation_action] |} w
          | Raise e =>
              send sid (error_message ("Search failed: " ++ exception_text e)) w
          end
      | None =>
          send sid {| content := summary_text response; type := DefaultMessage;
                      actions := [new_conversation_action] |} w
      end
  | Failed e => send sid (error_message ("Search failed: " ++ e)) w
  end.

(** [created] and [reply] are what the service gives if it is called. *)
Definition on_message (exception_text : exn -> string) (sid : nat) (query : string)
           (created : outcome string) (reply : outcome Reply) (w : world) : world :=
  let conversation_name := user_session w sid in
  let conversation_name :=
    if negb (truthy conversation_name) then GLOBAL_CONVERSATION_NAME w
    else conversation_name in
  match conversation_name with
  | Some (String a s) => answer exception_text sid query (String a s) reply w
  | _ =>
      let w := record_call (CreateConversation created) w in
      match created with
      | Returned conversation =>
          let w := set_global conversation w in
          let w := session_set sid conversation w in
          answer exception_text sid query conversation reply w
      | Failed e =>
          send sid (error_message ("Failed to initialize conversation: " ++ e)) w
      end
  end.

(** What reaches the application: a chat starts, the button is
    pressed, a message comes in. *)
Inductive event : Type :=
| ChatStart (sid : nat) (created : outcome string)
| NewConversation (sid : nat) (created : outcome string)
| UserMessage (sid : nat) (query : string) (created : outcome string) (reply : outcome Reply).

Definition event_session (ev : event) : nat :=
  match ev with
  | ChatStart sid _ | NewConversation sid _ | UserMessage sid _ _ _ => sid
  end.

Definition handle (exception_text : exn -> string) (w : world) (ev : event) : world :=
  match ev with
  | ChatStart sid created => on_chat_start sid created w
  | NewConversation sid created => on_new_conversation sid created w
  | UserMessage sid query created reply => on_message exception_text sid query created reply w
  end.

Definition run (exception_text : exn -> string) (evs : list event) (w : world) : world :=
  fold_left (handle exception_text) evs w.

(** The name given by the last call of [initialize_conversation] that
    returned, if any. *)
Fixpoint last_created (cs : list call) : option string :=
  match cs with
  | [] => None
  | c :: cs' =>
      match last_created cs' with
      | Some conversation => Some conversation
      | None => match c with
                | CreateConversation (Returned conversation) => Some conversation
                | _ => None
                end
      end
  end.

(** The names [initialize_conversation] has given. *)
Fixpoint created_names (cs : list call) : list string :=
  match cs with
  | [] => []
  | CreateConversation (Returned conversation) :: cs' => conversation :: created_names cs'
  | _ :: cs' => created_names cs'
  end.

(** The global is the name last created, and every session holds a
    created name. *)
Definition names_from_service (w : world) : Prop :=
  GLOBAL_CONVERSATION_NAME w = last_created (calls w)
  /\ forall sid conversation,
       user_session w sid = Some conversation -> In conversation (created_names (calls w)).

(** ** The interpreter's limits

    The model above reads text and URIs over code points below 256 and
    lets [int] read any number of digits.  [Full] is the program again
    with the two limits of the interpreter in place: a URI is a sequence
    of arbitrary code points, which [urllib.parse.quote] has to encode
    in UTF-8 and cannot when one is a lone surrogate, and [int] refuses a
    literal of more than 4300 digits (the default of
    [sys.get_int_max_str_digits()]). *)

Module Full.

(** A string as its code points, numbers up to 1114111. *)
Definition ustring : Type := list N.

Definition of_string (s : string) : ustring := map N_of_ascii (list_ascii_of_string s).

Fixpoint ustring_eqb (u v : ustring) : bool :=
  match u, v with
  | [], [] => true
  | a :: u', b :: v' => (a =? b)%N && ustring_eqb u' v'
  | _, _ => false
  end.

Fixpoint starts_with (p u : ustring) : bool :=
  match p, u with
  | [], _ => true
  | a :: p', b :: u' => (a =? b)%N && starts_with p' u'
  | _ :: _, [] => false
  end.

(** The code points U+D800 to U+DFFF. *)
Definition is_surrogate (cp : N) : bool := ((55296 <=? cp) && (cp <=? 57343))%N.

(** [chr(cp).encode('utf-8')]: a surrogate is refused. *)
Definition utf8_code_point (cp : N) : result (list N) :=
  if (cp <? 128)%N then OK [cp]
  else if (cp <? 2048)%N then OK [192 + cp / 64; 128 + cp mod 64]%N
  else if is_surrogate cp then Raise UnicodeEncodeError
  else if (cp <? 65536)%N then
    OK [224 + cp / 4096; 128 + (cp / 64) mod 64; 128 + cp mod 64]%N
  else
    OK [240 + cp / 262144; 128 + (cp / 4096) mod 64; 128 + (cp / 64) mod 64;
        128 + cp mod 64]%N.

(** [u.encode('utf-8')]. *)
Fixpoint utf8 (u : ustring) : result (list N) :=
  match u with
  | [] => OK []
  | cp :: u' =>
      bs <- utf8_code_point cp ;;
      rest <- utf8 u' ;;
      OK (bs ++ rest)%list
  end.

(** [urllib.parse.quote(u, safe=safe)]. *)
Definition quote (u : ustring) (safe : string) : result string :=
  bs <- utf8 u ;;
  OK (quote_bytes safe bs).

Definition int_max_str_digits : N := 4300.

Fixpoint digit_count (s : string) : N :=
  match s with
  | EmptyString => 0
  | String a s' => ((if is_digit a then 1 else 0) + digit_count s')%N
  end.

(** [int(s)] in base ten, with the limit on the number of digits. *)
Definition int (s : string) : result Z :=
  let literal := strip_by int_space s in
  match int_signed literal with
  | Some z =>
      if (int_max_str_digits <? digit_count literal)%N then Raise ValueError
      else OK z
  | None => Raise ValueError
  end.

Record SourceRef : Type := { uri : ustring }.

Definition protocol_match (url : ustring) : option string :=
  if starts_with (of_string "gs://") url then Some "gs" else None.

Definition protocol_sub (repl url : ustring) : ustring :=
  if starts_with (of_string "gs://") url then (repl ++ skipn 5 url)%list else url.

Definition parse_external_link (url : ustring) : ustring :=
  match url with
  | [] => url
  | _ =>
      let protocol := protocol_match url in
      match protocol with
      | Some "gs" => protocol_sub (of_string "https://storage.cloud.google.com/") url
      | _ => url
      end
  end.

Record state : Type := {
  references : list (Z * ustring);
  reference_counter : Z;
  formatted_text : string
}.

Definition add_text (st : state) (s : string) : state :=
  {| references := references st;
     reference_counter := reference_counter st;
     formatted_text := formatted_text st ++ s |}.

Definition in_values (url : ustring) (refs : list (Z * ustring)) : bool :=
  existsb (fun kv => ustring_eqb (snd kv) url) refs.

Fixpoint dict_set (k : Z) (v : ustring) (d : list (Z * ustring)) : list (Z * ustring) :=
  match d with
  | [] => [(k, v)]
  | (k', v') :: d' => if k' =? k then (k, v) :: d' else (k', v') :: dict_set k v d'
  end.

Fixpoint find_ref_id (url : ustring) (items : list (Z * ustring)) : option Z :=
  match items with
  | [] => None
  | (ref_id, ref_url) :: items' =>
      if ustring_eqb ref_url url then Some ref_id else find_ref_id url items'
  end.

Definition valid_index (urls : list SourceRef) (ref_num : Z) : bool :=
  (ref_num <=? len urls) && (ref_num >? 0).

Definition cite (urls : list SourceRef) (ref_num : Z) (acc : state * list string)
  : result (state * list string) :=
  let '(st, citation_numbers) := acc in
  if (ref_num <=? len urls) && (ref_num >? 0) then
    r <- index urls (ref_num - 1) ;;
    let url := parse_external_link (uri r) in
    if negb (in_values url (references st)) then
      OK ({| references := dict_set (reference_counter st) url (references st);
             reference_counter := reference_counter st + 1;
             formatted_text := formatted_text st |},
          (citation_numbers ++ [str (reference_counter st)])%list)
    else
      OK (st, match find_ref_id url (references st) with
              | Some ref_id => (citation_numbers ++ [str ref_id])%list
              | None => citation_numbers
              end)
  else OK acc.

Fixpoint cite_all (urls : list SourceRef) (ref_numbers : list Z) (acc : state * list string)
  : result (state * list string) :=
  match ref_numbers with
  | [] => OK acc
  | ref_num :: rest => acc' <- cite urls ref_num acc ;; cite_all urls rest acc'
  end.

Definition parse_marker (reference_str : string) : result (list Z) :=
  comprehension (fun ref => int (strip ref)) (split "," reference_str).

Definition try_body (urls : list SourceRef) (st : state) (part reference_str : string)
  : result state :=
  ref_numbers <- parse_marker reference_str ;;
  acc <- cite_all urls ref_numbers (st, []) ;;
  let '(st', citation_numbers) := acc in
  match citation_numbers with
  | _ :: _ =>
      tail <- index (split "]" part) 1 ;;
      OK (add_text st' ("[" ++ join ", " citation_numbers ++ "]" ++ tail))
  | [] =>
      tail <- index (split "]" part) 1 ;;
      OK (add_text st' ("[" ++ reference_str ++ "]" ++ tail))
  end.

Definition process_part (urls : list SourceRef) (st : state) (part : string) : result state :=
  if contains "]" part then
    reference_str <- index (split "]" part) 0 ;;
    try_except_ValueError
      (try_body urls st part reference_str)
      (OK (add_text st ("[" ++ part)))
  else OK (add_text st ("[" ++ part)).

Fixpoint process_parts (urls : list SourceRef) (st : state) (parts : list string) : result state :=
  match parts with
  | [] => OK st
  | part :: rest => st' <- process_part urls st part ;; process_parts urls st' rest
  end.

(** One line of the list; the quoting can raise. *)
Definition reference_line (entry : Z * ustring) : result string :=
  encoded_url <- quote (snd entry) ":/" ;;
  OK ("[" ++ str (fst entry) ++ "] " ++ encoded_url ++ nl).

Fixpoint reference_lines (items : list (Z * ustring)) : result string :=
  match items with
  | [] => OK EmptyString
  | entry :: items' =>
      line <- reference_line entry ;;
      lines <- reference_lines items' ;;
      OK (line ++ lines)
  end.

Definition initial_state (first : string) : state :=
  {| references := []; reference_counter := 1; formatted_text := first |}.

Definition run_parts (text : string) (urls : list SourceRef) : result state :=
  let parts := split "[" text in
  first <- index parts 0 ;;
  process_parts urls (initial_state first) (tl parts).

Definition format_citations (text : string) (urls : list SourceRef) : result string :=
  st <- run_parts text urls ;;
  match references st with
  | _ :: _ =>
      lines <- reference_lines (references st) ;;
      OK (formatted_text st ++ references_heading ++ lines)
  | [] => OK (formatted_text st)
  end.

Record Reply : Type := {
  summary_text : string;
  summary_references : option (list SourceRef)
}.

Definition answer (exception_text : exn -> string) (sid : nat) (query : string)
           (conversation_name : string) (reply : outcome Reply) (w : world) : world :=
  let w := record_call (ConverseConversation conversation_name query) w in
  match reply with
  | Returned response =>
      match summary_references response with
      | Some refs =>
          match format_citations (summary_text response) refs with
          | OK content =>
              send sid {| content := content; type := DefaultMessage;
                          actions := [new_conversation_action] |} w
          | Raise e =>
              send sid (error_message ("Search failed: " ++ exception_text e)) w
          end
      | None =>
          send sid {| content := summary_text response; type := DefaultMessage;
                      actions := [new_conversation_action] |} w
      end
  | Failed e => send sid (error_message ("Search failed: " ++ e)) w
  end.

Definition on_message (exception_text : exn -> string) (sid : nat) (query : string)
           (created : outcome string) (reply : outcome Reply) (w : world) : world :=
  let conversation_name := user_session w sid in
  let conversation_name :=
    if negb (truthy conversation_name) then GLOBAL_CONVERSATION_NAME w
    else conversation_name in
  match conversation_name with
  | Some (String a s) => answer exception_text sid query (String a s) reply w
  | _ =>
      let w := record_call (CreateConversation created) w in
      match created with
      | Returned conversation =>
          let w := set_global conversation w in
          let w := session_set sid conversation w in
          answer exception_text sid query conversation reply w
      | Failed e =>
          send sid (error_message ("Failed to initialize conversation: " ++ e)) w
      end
  end.

(** A URI that UTF-8 can encode: no code point of it is a surrogate. *)
Definition encodable (u : ustring) : bool :=
  forallb (fun cp => negb (is_surrogate cp)) u.

(** [n] times the digit 9. *)
Fixpoint nines (n : nat) : string :=
  match n with
  | O => EmptyString
  | S n' => String "9" (nines n')
  end.

End Full.

(** A reference list of the model above, as [Full] reads it. *)
Definition of_refs (urls : list SourceRef) : list Full.SourceRef :=
  map (fun r => {| Full.uri := Full.of_string (uri r) |}) urls.

(** A table and a state of the model above, as [Full] reads them. *)
Definition of_entry (entry : Z * string) : Z * Full.ustring :=
  (fst entry, Full.of_string (snd entry)).

Definition of_state (st : state) : Full.state :=
  {| Full.references := map of_entry (references st);
     Full.reference_counter := reference_counter st;
     Full.formatted_text := formatted_text st |}.

Definition of_acc (acc : state * list string) : Full.state * list string :=
  (of_state (fst acc), snd acc).

Definition result_map {A B : Type} (f : A -> B) (m : result A) : result B :=
  match m with
  | OK a => OK (f a)
  | Raise e => Raise e
  end.

(** Every token between commas is within the limit on digits. *)
Definition tokens_within_limit (reference_str : string) : Prop :=
  forall token,
    In token (split "," reference_str) ->
    (Full.digit_count (strip_by int_space (strip token)) <= Full.int_max_str_digits)%N.

(** ** Strings and lists *)

Lemma append_nil_r (s : string) : s ++ "" = s.
Proof. induction s as [|a s IH]; simpl; [reflexivity | now rewrite IH]. Qed.

Lemma append_assoc (s t u : string) : (s ++ t) ++ u = s ++ (t ++ u).
Proof. induction s as [|a s IH]; simpl; [reflexivity | now rewrite IH]. Qed.

Lemma contains_app (c : ascii) (s t : string) :
  contains c (s ++ t) = contains c s || contains c t.
Proof.
  induction s as [|a s IH]; simpl; [reflexivity|].
  now rewrite IH, orb_assoc.
Qed.

Lemma split_not_nil (c : ascii) (s : string) : split c s <> [].
Proof.
  induction s as [|a s IH]; simpl; [discriminate|].
  destruct (Ascii.eqb a c); [discriminate|].
  destruct (split c s); discriminate.
Qed.

(** Without the separator there is one piece. *)
Lemma split_absent (c : ascii) (s : string) :
  contains c s = false -> split c s = [s].
Proof.
  induction s as [|a s IH]; simpl; [reflexivity|].
  intros H. apply orb_false_iff in H as [Ha Hs].
  rewrite Ha, (IH Hs). reflexivity.
Qed.

(** The first piece ends at the first separator. *)
Lemma split_first (c : ascii) (s t : string) :
  contains c s = false -> split c (s ++ String c t) = s :: split c t.
Proof.
  induction s as [|a s IH]; simpl; intros H.
  - now rewrite Ascii.eqb_refl.
  - apply orb_false_iff in H as [Ha Hs].
    rewrite Ha, (IH Hs). reflexivity.
Qed.

(** A string that holds the separator splits at its first occurrence. *)
Lemma contains_cut (c : ascii) (s : string) :
  contains c s = true ->
  exists a b, s = a ++ String c b /\ contains c a = false.
Proof.
  induction s as [|x s IH]; simpl; [discriminate|].
  destruct (Ascii.eqb x c) eqn:E; simpl.
  - intros _. apply Ascii.eqb_eq in E. subst x.
    exists "", s. now split.
  - intros H. destruct (IH H) as (a & b & -> & Ha).
    exists (String x a), b. simpl. rewrite E, Ha. now split.
Qed.

Lemma split_contains (c : ascii) (s : string) :
  contains c s = true ->
  exists a b l, split c s = a :: b :: l.
Proof.
  intros H. destruct (contains_cut c s H) as (a & b & -> & Ha).
  rewrite (split_first c a b Ha).
  destruct (split c b) as [|p ps] eqn:E; [now apply split_not_nil in E|].
  now exists a, p, ps.
Qed.

Lemma index_0 {A : Type} (x : A) (l : list A) : index (x :: l) 0 = OK x.
Proof. reflexivity. Qed.

Lemma index_1 {A : Type} (x y : A) (l : list A) : index (x :: y :: l) 1 = OK y.
Proof. reflexivity. Qed.

(** A 1-based index inside the list reads an element. *)
Lemma index_valid {A : Type} (l : list A) (n : Z) :
  0 < n <= len l -> exists x, index l (n - 1) = OK x.
Proof.
  intros [Hlo Hhi]. unfold index.
  assert (E : (n - 1 <? 0) = false) by (apply Z.ltb_ge; lia).
  rewrite !E.
  destruct (nth_error l (Z.to_nat (n - 1))) eqn:En; [now eexists|].
  apply nth_error_None in En. unfold len in Hhi. lia.
Qed.

(** ** [int] fails with [ValueError] only *)

Lemma int_raises (s : string) (e : exn) : int s = Raise e -> e = ValueError.
Proof.
  unfold int. destruct (int_signed _); [discriminate|]. now intros [= <-].
Qed.

Lemma parse_marker_raises (reference_str : string) (e : exn) :
  parse_marker reference_str = Raise e -> e = ValueError.
Proof.
  unfold parse_marker. generalize (split "," reference_str) as l.
  induction l as [|x xs IH]; simpl; [discriminate|].
  destruct (int (strip x)) eqn:Ex; simpl.
  - destruct (comprehension _ xs); simpl; [discriminate|].
    intros [= <-]. now apply IH.
  - intros [= <-]. now apply int_raises in Ex.
Qed.

(** ** The loops return *)

Lemma cite_returns (urls : list SourceRef) (ref_num : Z) (acc : state * list string) :
  exists acc', cite urls ref_num acc = OK acc'.
Proof.
  destruct acc as [st cits]. unfold cite.
  destruct ((ref_num <=? len urls) && (ref_num >? 0)) eqn:G; [|now eexists].
  apply andb_true_iff in G as [G1 G2].
  apply Z.leb_le in G1. apply Z.gtb_lt in G2.
  destruct (index_valid urls ref_num) as [r Hr]; [lia|].
  rewrite Hr. simpl.
  destruct (negb _); now eexists.
Qed.

Lemma cite_all_returns (urls : list SourceRef) (ref_numbers : list Z) :
  forall acc, exists acc', cite_all urls ref_numbers acc = OK acc'.
Proof.
  induction ref_numbers as [|n ns IH]; intros acc; simpl; [now eexists|].
  destruct (cite_returns urls n acc) as [acc' ->]. simpl. apply IH.
Qed.

Lemma process_part_returns (urls : list SourceRef) (st : state) (part : string) :
  exists st', process_part urls st part = OK st'.
Proof.
  unfold process_part, try_body.
  destruct (contains "]" part) eqn:C; [|now eexists].
  destruct (split_contains _ _ C) as (a & b & l & ->).
  rewrite index_0. simpl.
  destruct (parse_marker a) as [nums|e] eqn:P; simpl.
  - destruct (cite_all_returns urls nums (st, [])) as [[st' cits] ->]. simpl.
    destruct cits; simpl; now eexists.
  - apply parse_marker_raises in P. subst e. simpl. now eexists.
Qed.

Lemma process_parts_returns (urls : list SourceRef) (parts : list string) :
  forall st, exists st', process_parts urls st parts = OK st'.
Proof.
  induction parts as [|p ps IH]; intros st; simpl; [now eexists|].
  destruct (process_part_returns urls st p) as [st' ->]. simpl. apply IH.
Qed.

Lemma run_parts_returns (text : string) (urls : list SourceRef) :
  exists st, run_parts text urls = OK st.
Proof.
  unfold run_parts.
  destruct (split "[" text) as [|first rest] eqn:E; [now apply split_not_nil in E|].
  rewrite index_0. simpl. apply process_parts_returns.
Qed.

(** ** The URL normalizer *)

Lemma substring_whole (s : string) : String.substring 0 (String.length s) s = s.
Proof. induction s as [|a s IH]; simpl; [reflexivity | now rewrite IH]. Qed.

Lemma prefix_cut (p s : string) :
  String.prefix p s = true -> exists rest, s = p ++ rest.
Proof.
  revert s. induction p as [|a p IH]; intros s; simpl.
  - intros _. now exists s.
  - destruct s as [|b s]; simpl; [discriminate|].
    destruct (ascii_dec a b) as [E|E]; [subst b|discriminate].
    intros H. destruct (IH s H) as [rest ->]. now exists rest.
Qed.

Lemma parse_external_link_gs (rest : string) :
  parse_external_link ("gs://" ++ rest) = "https://storage.cloud.google.com/" ++ rest.
Proof.
  assert (P : String.prefix "gs://" ("gs://" ++ rest) = true)
    by (simpl; now destruct rest).
  unfold parse_external_link, protocol_match, protocol_sub.
  rewrite P. simpl.
  now rewrite Nat.sub_0_r, substring_whole.
Qed.

Lemma parse_external_link_other (url : string) :
  String.prefix "gs://" url = false -> parse_external_link url = url.
Proof.
  intros H. unfold parse_external_link, protocol_match. rewrite H.
  now destruct url.
Qed.

(** C7. [parse_external_link] is a function on all strings: it returns
    the empty string unchanged, replaces a leading [gs://] (in lower
    case only) by [https://storage.cloud.google.com/] and keeps the rest
    of the string, and returns every other string unchanged. *)
Theorem parse_external_link_spec :
  parse_external_link "" = ""
  /\ (forall rest, parse_external_link ("gs://" ++ rest)
                   = "https://storage.cloud.google.com/" ++ rest)
  /\ (forall url, (forall rest, url <> "gs://" ++ rest) -> parse_external_link url = url).
Proof.
  split; [reflexivity|]. split; [exact parse_external_link_gs|].
  intros url H. apply parse_external_link_other.
  destruct (String.prefix "gs://" url) eqn:E; [|reflexivity].
  destruct (prefix_cut _ _ E) as [rest ->]. now elim (H rest).
Qed.

Lemma parse_external_link_spec_witness :
  parse_external_link "gs://bucket/a.pdf" = "https://storage.cloud.google.com/bucket/a.pdf"
  /\ parse_external_link "GS://bucket/a.pdf" = "GS://bucket/a.pdf".
Proof.
  destruct parse_external_link_spec as (_ & Hgs & Hother). split.
  - exact (Hgs "bucket/a.pdf").
  - apply Hother. intros rest. simpl. discriminate.
Defined.

(** ** The example of the specification *)

(** C3. On ["Revenue grew [1]. See also [2,1]."] with the references
    [gs://bucket/a.pdf] and [https://example.com/b] the formatter returns
    the text with the markers [[1]] and [[2, 1]], then the list of
    references: 1 is the public URL of the bucket object, 2 the second
    URL. *)
Theorem format_citations_example :
  format_citations "Revenue grew [1]. See also [2,1]." example_refs
  = OK ("Revenue grew [1]. See also [2, 1]."
        ++ nl ++ nl ++ "**References:**" ++ nl
        ++ "[1] https://storage.cloud.google.com/bucket/a.pdf" ++ nl
        ++ "[2] https://example.com/b" ++ nl).
Proof. vm_compute. reflexivity. Qed.

(** ** The citation table *)

Lemma len_app {A : Type} (l : list A) (x : A) : len (l ++ [x]) = len l + 1.
Proof. unfold len. rewrite length_app. simpl. lia. Qed.

Lemma len_nonneg {A : Type} (l : list A) : 0 <= len l.
Proof. unfold len. lia. Qed.

Lemma len_cons {A : Type} (x : A) (l : list A) : len (x :: l) = len l + 1.
Proof. unfold len. simpl. lia. Qed.

Lemma seen_In (u : string) (seen : list string) :
  existsb (fun v => String.eqb v u) seen = true <-> In u seen.
Proof.
  rewrite existsb_exists. split.
  - intros (v & Hv & E). apply String.eqb_eq in E. now subst v.
  - intros H. exists u. split; [assumption | apply String.eqb_refl].
Qed.

Lemma in_values_enumerate (u : string) (seen : list string) :
  forall k, in_values u (enumerate_from k seen) = existsb (fun v => String.eqb v u) seen.
Proof.
  induction seen as [|v seen IH]; intros k; simpl; [reflexivity|].
  now rewrite <- (IH (k + 1)).
Qed.

(** Setting the key after the last one appends an entry. *)
Lemma dict_set_enumerate (u : string) (seen : list string) :
  forall k, dict_set (k + len seen) u (enumerate_from k seen)
            = enumerate_from k (seen ++ [u]).
Proof.
  induction seen as [|v seen IH]; intros k; simpl.
  - unfold len. simpl. now rewrite Z.add_0_r.
  - rewrite len_cons.
    assert (E : (k =? k + (len seen + 1)) = false)
      by (apply Z.eqb_neq; pose proof (len_nonneg seen); lia).
    rewrite E. f_equal.
    replace (k + (len seen + 1)) with (k + 1 + len seen) by lia.
    apply IH.
Qed.

(** The search finds the number of a URL of the table. *)
Lemma find_ref_id_enumerate (u : string) (seen : list string) :
  In u seen ->
  forall k, find_ref_id u (enumerate_from k seen) = Some (k - 1 + number_of u seen).
Proof.
  induction seen as [|v seen IH]; intros Hin k; simpl; [contradiction|].
  destruct (String.eqb v u) eqn:E.
  - apply (f_equal Some). lia.
  - destruct Hin as [->|Hin]; [now rewrite String.eqb_refl in E|].
    rewrite (IH Hin). apply (f_equal Some). lia.
Qed.

Lemma number_of_app (u : string) (seen ext : list string) :
  In u seen -> number_of u (seen ++ ext) = number_of u seen.
Proof.
  induction seen as [|v seen IH]; simpl; [contradiction|].
  intros Hin. destruct (String.eqb v u) eqn:E; [reflexivity|].
  destruct Hin as [->|Hin]; [now rewrite String.eqb_refl in E|].
  now rewrite (IH Hin).
Qed.

Lemma number_of_new (u : string) (seen : list string) :
  ~ In u seen -> number_of u (seen ++ [u]) = len seen + 1.
Proof.
  induction seen as [|v seen IH]; intros Hn.
  - simpl. now rewrite String.eqb_refl.
  - cbn [app number_of]. destruct (String.eqb v u) eqn:E.
    + apply String.eqb_eq in E. subst v. now elim Hn; left.
    + rewrite IH, len_cons by (intros H; apply Hn; now right). lia.
Qed.


Lemma first_seen_from_app (a b : list string) :
  forall seen, first_seen_from seen (a ++ b) = first_seen_from (first_seen_from seen a) b.
Proof.
  induction a as [|u a IH]; intros seen; simpl; [reflexivity|].
  destruct (existsb _ seen); apply IH.
Qed.

(** The table only grows at its end. *)
Lemma first_seen_from_extends (us : list string) :
  forall seen, exists ext, first_seen_from seen us = (seen ++ ext)%list.
Proof.
  induction us as [|u us IH]; intros seen; simpl.
  - exists []. now rewrite app_nil_r.
  - destruct (existsb _ seen); [apply IH|].
    destruct (IH (seen ++ [u])%list) as [ext ->].
    exists (u :: ext). now rewrite <- app_assoc.
Qed.

Lemma first_seen_from_In (us : list string) :
  forall seen u, In u seen \/ In u us -> In u (first_seen_from seen us).
Proof.
  induction us as [|v us IH]; intros seen u; simpl.
  - now intros [H|[]].
  - intros H. destruct (existsb _ seen) eqn:E.
    + apply IH. destruct H as [H|[<-|H]]; auto.
      left. now apply seen_In.
    + apply IH. destruct H as [H|[<-|H]]; auto.
      * left. apply in_or_app. now left.
      * left. apply in_or_app. right. now left.
Qed.

Lemma first_seen_from_NoDup (us : list string) :
  forall seen, NoDup seen -> NoDup (first_seen_from seen us).
Proof.
  induction us as [|u us IH]; intros seen Hnd; simpl; [assumption|].
  destruct (existsb _ seen) eqn:E; [now apply IH|].
  apply IH. apply NoDup_app; [assumption | repeat constructor; intros [] |].
  intros v Hv [<-|[]].
  apply seen_In in Hv. congruence.
Qed.

Lemma first_seen_from_nil (us seen : list string) :
  first_seen_from seen us = [] -> us = [].
Proof.
  destruct us as [|u us]; [reflexivity|]. simpl.
  destruct (existsb _ seen) eqn:E.
  - destruct seen; [discriminate|].
    destruct (first_seen_from_extends us (s :: seen)) as [ext ->]. discriminate.
  - destruct (first_seen_from_extends us (seen ++ [u])%list) as [ext ->].
    intros H. apply app_eq_nil in H as [H _]. now apply app_eq_nil in H as [_ H].
Qed.

(** The numbers written for URLs of the table stay when it grows. *)
Lemma numbers_stable (us seen ext : list string) :
  (forall u, In u us -> In u seen) ->
  map (fun u => str (number_of u (seen ++ ext))) us
  = map (fun u => str (number_of u seen)) us.
Proof.
  intros H. apply map_ext_in. intros u Hu. now rewrite number_of_app by auto.
Qed.

(** ** The loop over the indices of a marker *)

Lemma cite_invalid (urls : list SourceRef) (ref_num : Z) (acc : state * list string) :
  valid_index urls ref_num = false -> cite urls ref_num acc = OK acc.
Proof.
  unfold valid_index, cite. destruct acc as [st cits]. now intros ->.
Qed.

(** A valid index writes the number of its URL in the table, which is
    extended when the URL is new. *)
Lemma cite_valid (urls : list SourceRef) (ref_num : Z) (st : state)
      (cits : list string) (seen : list string) :
  table_of st seen ->
  valid_index urls ref_num = true ->
  let seen' := first_seen_from seen [url_at urls ref_num] in
  exists st',
    cite urls ref_num (st, cits)
    = OK (st', (cits ++ [str (number_of (url_at urls ref_num) seen')])%list)
    /\ table_of st' seen'
    /\ formatted_text st' = formatted_text st.
Proof.
  intros (Hrefs & Hnd & Hctr) Hv. unfold valid_index in Hv.
  unfold cite, url_at. rewrite Hv.
  apply andb_true_iff in Hv as [G1 G2].
  apply Z.leb_le in G1. apply Z.gtb_lt in G2.
  destruct (index_valid urls ref_num) as [r Hr]; [lia|].
  rewrite Hr. cbn [bind first_seen_from].
  set (u := parse_external_link (uri r)).
  rewrite Hrefs. unfold enumerate. rewrite in_values_enumerate.
  destruct (existsb (fun v => String.eqb v u) seen) eqn:E; cbn [negb].
  - apply seen_In in E. rewrite (find_ref_id_enumerate u seen E 1).
    exists st. replace (1 - 1 + number_of u seen) with (number_of u seen) by lia.
    repeat split; assumption.
  - assert (Hn : ~ In u seen) by (intros H; apply seen_In in H; congruence).
    rewrite Hctr, (number_of_new u seen Hn).
    eexists. split; [reflexivity|]. split; [|reflexivity].
    split; [|split]; cbn [references reference_counter].
    + replace (len seen + 1) with (1 + len seen) by lia.
      apply dict_set_enumerate.
    + apply (first_seen_from_NoDup [u] seen) in Hnd. simpl in Hnd.
      now rewrite E in Hnd.
    + rewrite len_app. reflexivity.
Qed.

Lemma marker_urls_cons (urls : list SourceRef) (n : Z) (ns : list Z) :
  marker_urls urls (n :: ns)
  = if valid_index urls n then url_at urls n :: marker_urls urls ns
    else marker_urls urls ns.
Proof.
  unfold marker_urls. simpl. now destruct (valid_index urls n).
Qed.

(** The whole marker: one number per valid index, each the number of
    its URL in the table the loop ends with. *)
Lemma cite_all_spec (urls : list SourceRef) (ref_numbers : list Z) :
  forall st cits seen,
    table_of st seen ->
    let seen' := first_seen_from seen (marker_urls urls ref_numbers) in
    exists st',
      cite_all urls ref_numbers (st, cits)
      = OK (st', (cits ++ map (fun u => str (number_of u seen'))
                              (marker_urls urls ref_numbers))%list)
      /\ table_of st' seen'
      /\ formatted_text st' = formatted_text st.
Proof.
  induction ref_numbers as [|n ns IH]; intros st cits seen Ht; cbn zeta.
  - exists st. simpl. rewrite app_nil_r. auto.
  - rewrite marker_urls_cons. cbn [cite_all].
    destruct (valid_index urls n) eqn:V.
    + destruct (cite_valid urls n st cits seen Ht V) as (st1 & -> & Ht1 & Hf1).
      cbn [bind].
      destruct (IH st1 (cits ++ [str (number_of (url_at urls n)
                  (first_seen_from seen [url_at urls n]))])%list _ Ht1)
        as (st' & -> & Ht' & Hf').
      change (url_at urls n :: marker_urls urls ns)
        with ([url_at urls n] ++ marker_urls urls ns)%list.
      rewrite first_seen_from_app.
      exists st'. split; [|split; [assumption | congruence]].
      f_equal. f_equal. rewrite <- app_assoc. f_equal. cbn [map app].
      f_equal.
      destruct (first_seen_from_extends (marker_urls urls ns)
                  (first_seen_from seen [url_at urls n])) as [ext ->].
      rewrite number_of_app; [reflexivity|].
      apply first_seen_from_In. right. now left.
    + rewrite (cite_invalid urls n _ V). cbn [bind]. now apply IH.
Qed.

(** ** The loop over the segments *)

Lemma process_part_plain (urls : list SourceRef) (st : state) (part : string) :
  contains "]" part = false ->
  process_part urls st part = OK (add_text st ("[" ++ part)).
Proof. unfold process_part. now intros ->. Qed.

(** A segment whose marker does not parse is copied. *)
Lemma process_part_unparsed (urls : list SourceRef) (st : state)
      (part reference_str : string) (l : list string) (e : exn) :
  contains "]" part = true ->
  split "]" part = reference_str :: l ->
  parse_marker reference_str = Raise e ->
  process_part urls st part = OK (add_text st ("[" ++ part)).
Proof.
  intros C S P. unfold process_part, try_body. rewrite C, S, index_0.
  cbn [bind]. rewrite P. apply parse_marker_raises in P. now subst e.
Qed.

(** A segment whose marker parses: the marker becomes the numbers the
    loop wrote, or stays when it wrote none, and the text up to the next
    [']'] follows. *)
Lemma process_part_parsed (urls : list SourceRef) (st st' : state)
      (part reference_str tail : string) (l : list string)
      (ref_numbers : list Z) (citation_numbers : list string) :
  split "]" part = reference_str :: tail :: l ->
  parse_marker reference_str = OK ref_numbers ->
  cite_all urls ref_numbers (st, []) = OK (st', citation_numbers) ->
  process_part urls st part
  = OK (add_text st' ("[" ++ match citation_numbers with
                             | [] => reference_str
                             | _ :: _ => join ", " citation_numbers
                             end ++ "]" ++ tail)).
Proof.
  intros S P C. unfold process_part, try_body.
  assert (Hc : contains "]" part = true).
  { destruct (contains "]" part) eqn:E; [reflexivity|].
    rewrite (split_absent _ _ E) in S. discriminate. }
  rewrite Hc, S, index_0. cbn [bind]. rewrite P. cbn [bind]. rewrite C.
  cbn [bind]. rewrite index_1.
  now destruct citation_numbers.
Qed.

Lemma process_part_spec (urls : list SourceRef) (st : state) (part : string)
      (seen : list string) :
  table_of st seen ->
  let seen' := first_seen_from seen (part_urls urls part) in
  exists st',
    process_part urls st part = OK st'
    /\ table_of st' seen'
    /\ formatted_text st' = formatted_text st ++ rewritten seen' urls part.
Proof.
  intros Ht. cbn zeta. unfold rewritten, part_urls, pass_through, second_piece.
  destruct (contains "]" part) eqn:C.
  - destruct (split_contains _ _ C) as (a & b & l & S). rewrite S.
    destruct (parse_marker a) as [nums|e] eqn:P.
    + destruct (cite_all_spec urls nums st [] seen Ht) as (st1 & Hc & Ht1 & Hf1).
      cbn [app] in Hc.
      rewrite (process_part_parsed _ _ _ _ _ _ _ _ _ S P Hc).
      eexists. split; [reflexivity|]. split; [exact Ht1|].
      cbn [add_text formatted_text]. rewrite Hf1.
      now destruct (marker_urls urls nums).
    + rewrite (process_part_unparsed _ _ _ _ _ _ C S P).
      eexists. split; [reflexivity|]. now split.
  - rewrite (process_part_plain _ _ _ C), (split_absent _ _ C).
    eexists. split; [reflexivity|]. now split.
Qed.

Lemma part_urls_seen (urls : list SourceRef) (part : string) (seen : list string) :
  forall ext,
    rewritten (first_seen_from seen (part_urls urls part) ++ ext) urls part
    = rewritten (first_seen_from seen (part_urls urls part)) urls part.
Proof.
  intros ext. unfold rewritten.
  destruct (part_urls urls part) as [|u us] eqn:E; [reflexivity|].
  rewrite numbers_stable; [reflexivity|].
  intros v Hv. apply first_seen_from_In. now right.
Qed.

(** The loop as a whole: the table it ends with numbers the cited URLs
    in the order they first occur, and every segment is written under
    that table. *)
Lemma process_parts_spec (urls : list SourceRef) (parts : list string) :
  forall st seen,
    table_of st seen ->
    let seen' := first_seen_from seen (cited_urls urls parts) in
    exists st',
      process_parts urls st parts = OK st'
      /\ table_of st' seen'
      /\ formatted_text st'
         = formatted_text st ++ concat_map (rewritten seen' urls) parts.
Proof.
  induction parts as [|p ps IH]; intros st seen Ht; cbn zeta.
  - exists st. simpl. rewrite append_nil_r. auto.
  - cbn [process_parts cited_urls flat_map concat_map].
    destruct (process_part_spec urls st p seen Ht) as (st1 & -> & Ht1 & Hf1).
    cbn [bind].
    destruct (IH st1 _ Ht1) as (st' & -> & Ht' & Hf').
    rewrite first_seen_from_app.
    exists st'. split; [reflexivity|]. split; [assumption|].
    rewrite Hf', Hf1, append_assoc. f_equal. f_equal.
    destruct (first_seen_from_extends (flat_map (part_urls urls) ps)
               (first_seen_from seen (part_urls urls p))) as [ext ->].
    now rewrite part_urls_seen.
Qed.

Lemma table_of_initial (first : string) : table_of (initial_state first) [].
Proof. repeat split. constructor. Qed.

(** The state [format_citations] builds before it appends the list. *)
Lemma run_parts_spec (text : string) (urls : list SourceRef) :
  let parts := split "[" text in
  let seen := first_seen (cited_urls urls (tl parts)) in
  exists st,
    run_parts text urls = OK st
    /\ table_of st seen
    /\ formatted_text st
       = hd EmptyString parts ++ concat_map (rewritten seen urls) (tl parts).
Proof.
  cbn zeta. unfold run_parts.
  destruct (split "[" text) as [|first rest] eqn:E; [now apply split_not_nil in E|].
  rewrite index_0. cbn [bind tl hd].
  destruct (process_parts_spec urls rest (initial_state first) [] (table_of_initial first))
    as (st & H & Ht & Hf).
  exists st. auto.
Qed.

(** ** Numbering *)









(** ** Markers that are kept *)

Lemma cite_all_invalid (urls : list SourceRef) (ref_numbers : list Z) :
  forall acc,
    (forall n, In n ref_numbers -> valid_index urls n = false) ->
    cite_all urls ref_numbers acc = OK acc.
Proof.
  induction ref_numbers as [|n ns IH]; intros acc H; simpl; [reflexivity|].
  rewrite cite_invalid by (apply H; now left).
  simpl. apply IH. intros m Hm. apply H. now right.
Qed.

Lemma split_marker (reference_str rest : string) :
  contains "]" reference_str = false ->
  split "]" (reference_str ++ "]" ++ rest)
  = reference_str :: hd EmptyString (split "]" rest) :: tl (split "]" rest).
Proof.
  intros H. change (reference_str ++ "]" ++ rest) with (reference_str ++ String "]" rest).
  rewrite (split_first _ _ _ H).
  destruct (split "]" rest) eqn:E; [now apply split_not_nil in E | reflexivity].
Qed.

Lemma out_of_range (urls : list SourceRef) (n : Z) :
  n <= 0 \/ len urls < n -> valid_index urls n = false.
Proof.
  intros H. unfold valid_index. apply andb_false_iff.
  destruct H as [H|H]; [right; rewrite Z.gtb_ltb; apply Z.ltb_ge | left; apply Z.leb_gt]; lia.
Qed.

(** C4. A marker whose content parses as integers that are all out of
    range (zero, negative or above the number of references) is written
    as it stands, brackets and content, and the table is left as it
    was.  So on ["Bad ref [9]."] with one reference, whichever, the
    output is the input, without a list of references. *)
Theorem out_of_range_marker_kept :
  (forall urls st reference_str rest ref_numbers,
     contains "]" reference_str = false ->
     parse_marker reference_str = OK ref_numbers ->
     (forall n, In n ref_numbers -> n <= 0 \/ len urls < n) ->
     exists st',
       process_part urls st (reference_str ++ "]" ++ rest) = OK st'
       /\ formatted_text st'
          = formatted_text st ++ "[" ++ reference_str ++ "]" ++ hd EmptyString (split "]" rest)
       /\ references st' = references st
       /\ reference_counter st' = reference_counter st)
  /\ (forall r, format_citations "Bad ref [9]." [r] = OK "Bad ref [9].").
Proof.
  split; [|intros r; reflexivity].
  intros urls st reference_str rest ref_numbers Hr P Hall.
  assert (C : cite_all urls ref_numbers (st, []) = OK (st, [])).
  { apply cite_all_invalid. intros n Hn. apply out_of_range. now apply Hall. }
  rewrite (process_part_parsed _ _ _ _ _ _ _ _ _ (split_marker _ rest Hr) P C).
  eexists. split; [reflexivity|]. repeat split.
Qed.

Lemma out_of_range_marker_kept_witness :
  exists st',
    process_part example_refs (initial_state "x") ("0, 3,-1" ++ "]" ++ " y") = OK st'
    /\ formatted_text st' = "x[0, 3,-1] y"
    /\ references st' = []
    /\ reference_counter st' = 1.
Proof.
  destruct out_of_range_marker_kept as [H _].
  apply (H example_refs (initial_state "x") "0, 3,-1" " y" [0; 3; -1]).
  - reflexivity.
  - reflexivity.
  - intros n [<-|[<-|[<-|[]]]]; vm_compute; intuition discriminate.
Defined.

Lemma comprehension_raises {A B : Type} (f : A -> result B) (l : list A) (x : A) (e : exn) :
  In x l -> f x = Raise e -> exists e', comprehension f l = Raise e'.
Proof.
  induction l as [|y l IH]; simpl; [contradiction|].
  intros [->|Hin] Hx.
  - rewrite Hx. now eexists.
  - destruct (f y); simpl; [|now eexists].
    destruct (IH Hin Hx) as [e' ->]. now eexists.
Qed.

(** C5. A marker one of whose comma-separated tokens is not an integer
    is copied with the rest of its segment, and nothing is raised; so
    [[abc]] comes out as it went in. *)
Theorem unparsed_marker_kept :
  (forall urls st reference_str rest token,
     contains "]" reference_str = false ->
     In token (split "," reference_str) ->
     int (strip token) = Raise ValueError ->
     process_part urls st (reference_str ++ "]" ++ rest)
     = OK (add_text st ("[" ++ reference_str ++ "]" ++ rest)))
  /\ (forall urls, format_citations "[abc]" urls = OK "[abc]").
Proof.
  split; [|reflexivity].
  intros urls st reference_str rest token Hr Hin Hint.
  destruct (comprehension_raises (fun ref => int (strip ref)) _ _ _ Hin Hint) as [e P].
  eapply (process_part_unparsed urls st _ reference_str _ e).
  - change (reference_str ++ "]" ++ rest) with (reference_str ++ String "]" rest).
    rewrite contains_app. simpl. now rewrite orb_true_r.
  - apply split_marker, Hr.
  - exact P.
Qed.

Lemma unparsed_marker_kept_witness :
  process_part example_refs (initial_state "x") ("1, b" ++ "]" ++ " y] z")
  = OK (add_text (initial_state "x") "[1, b] y] z").
Proof.
  destruct unparsed_marker_kept as [H _].
  apply (H example_refs (initial_state "x") "1, b" " y] z" " b").
  - reflexivity.
  - simpl. right. now left.
  - reflexivity.
Defined.

(** ** Negative indices *)

Lemma is_digit_facts (a : ascii) :
  is_digit a = true ->
  isspace a = false /\ int_space a = false
  /\ Ascii.eqb a "," = false /\ Ascii.eqb a "]" = false
  /\ Ascii.eqb a "_" = false /\ 0 <= digit_value a.
Proof.
  destruct a as [[] [] [] [] [] [] [] []]; vm_compute; intros H;
    try discriminate H; repeat split; discriminate.
Qed.

Lemma all_chars_impl (q q' : ascii -> bool) (s : string) :
  (forall a, q a = true -> q' a = true) ->
  all_chars q s = true -> all_chars q' s = true.
Proof.
  intros Hq. induction s as [|a s IH]; simpl; [reflexivity|].
  intros H. apply andb_true_iff in H as [Ha Hs].
  now rewrite (Hq a Ha), (IH Hs).
Qed.

Lemma all_chars_absent (c : ascii) (s : string) :
  all_chars (fun a => negb (Ascii.eqb a c)) s = true -> contains c s = false.
Proof.
  induction s as [|a s IH]; simpl; [reflexivity|].
  intros H. apply andb_true_iff in H as [Ha Hs].
  apply negb_true_iff in Ha. now rewrite Ha, (IH Hs).
Qed.

Lemma lstrip_by_none (p : ascii -> bool) (s : string) :
  all_chars (fun a => negb (p a)) s = true -> lstrip_by p s = s.
Proof.
  destruct s as [|a s]; simpl; [reflexivity|].
  intros H. apply andb_true_iff in H as [Ha _].
  apply negb_true_iff in Ha. now rewrite Ha.
Qed.

Lemma rstrip_by_none (p : ascii -> bool) (s : string) :
  all_chars (fun a => negb (p a)) s = true -> rstrip_by p s = s.
Proof.
  induction s as [|a s IH]; simpl; [reflexivity|].
  intros H. apply andb_true_iff in H as [Ha Hs].
  apply negb_true_iff in Ha. rewrite (IH Hs), Ha. now destruct s.
Qed.

Lemma strip_by_none (p : ascii -> bool) (s : string) :
  all_chars (fun a => negb (p a)) s = true -> strip_by p s = s.
Proof.
  intros H. unfold strip_by. now rewrite (lstrip_by_none p s H), (rstrip_by_none p s H).
Qed.

(** Digits read as a number that is not negative. *)
Lemma int_digits_all_digits (digits : string) :
  forall prev acc,
    all_digits digits = true ->
    0 <= acc ->
    digits <> EmptyString \/ prev = true ->
    exists v, int_digits digits prev acc = Some v /\ 0 <= v.
Proof.
  induction digits as [|a s IH]; intros prev acc Hd Hacc Hne; cbn [int_digits].
  - destruct Hne as [Hne| ->]; [now elim Hne | now exists acc].
  - unfold all_digits in Hd. simpl in Hd. apply andb_true_iff in Hd as [Ha Hs].
    rewrite Ha. destruct (is_digit_facts a Ha) as (_ & _ & _ & _ & _ & Hv).
    apply IH; [exact Hs | lia | now right].
Qed.

(** A minus sign and digits parse to a number that is no index. *)
Lemma int_negative_token (urls : list SourceRef) (digits : string) :
  digits <> EmptyString ->
  all_digits digits = true ->
  exists z, int (strip (negative_token digits)) = OK z
            /\ z <= 0 /\ valid_index urls z = false.
Proof.
  intros Hne Hd. unfold negative_token, strip, int.
  assert (S1 : all_chars (fun a => negb (isspace a)) (String "-" digits) = true).
  { simpl. apply (all_chars_impl is_digit); [|exact Hd].
    intros a Ha. now destruct (is_digit_facts a Ha) as (-> & _). }
  assert (S2 : all_chars (fun a => negb (int_space a)) (String "-" digits) = true).
  { simpl. apply (all_chars_impl is_digit); [|exact Hd].
    intros a Ha. now destruct (is_digit_facts a Ha) as (_ & -> & _). }
  rewrite (strip_by_none _ _ S1), (strip_by_none _ _ S2).
  cbn [int_signed]. 
  destruct (int_digits_all_digits digits false 0 Hd) as (v & -> & Hv);
    [lia | now left |].
  exists (- v). cbn [option_map]. split; [reflexivity|].
  split; [lia | apply out_of_range; lia].
Qed.

Lemma contains_join (c : ascii) (sep : string) (l : list string) :
  contains c sep = false ->
  (forall x, In x l -> contains c x = false) ->
  contains c (join sep l) = false.
Proof.
  intros Hsep. induction l as [|x l IH]; intros H; [reflexivity|].
  unfold join in *. cbn [String.concat]. destruct l as [|y l].
  - apply H. now left.
  - rewrite !contains_app, Hsep, (H x) by now left.
    apply IH. intros z Hz. apply H. now right.
Qed.

(** [split] undoes [join] when no element holds the separator. *)
Lemma split_join (c : ascii) (l : list string) :
  l <> [] ->
  (forall x, In x l -> contains c x = false) ->
  split c (join (String c EmptyString) l) = l.
Proof.
  induction l as [|x l IH]; intros Hne H; [now elim Hne|].
  unfold join in *. cbn [String.concat]. destruct l as [|y l].
  - apply split_absent, H. now left.
  - change (x ++ String c "" ++ String.concat (String c "") (y :: l))
      with (x ++ String c (String.concat (String c "") (y :: l))).
    rewrite split_first by (apply H; now left).
    f_equal. apply IH; [discriminate|]. intros z Hz. apply H. now right.
Qed.

Lemma comprehension_all {A B : Type} (f : A -> result B) (Q : B -> Prop) (l : list A) :
  (forall x, In x l -> exists y, f x = OK y /\ Q y) ->
  exists ys, comprehension f l = OK ys /\ (forall y, In y ys -> Q y)
             /\ List.length ys = List.length l.
Proof.
  induction l as [|x l IH]; intros H; simpl.
  - exists []. repeat split. intros y [].
  - destruct (H x) as (y & -> & Hy); [now left|].
    destruct IH as (ys & -> & Hys & Hlen); [intros z Hz; apply H; now right|].
    exists (y :: ys). simpl. repeat split; [|now rewrite Hlen].
    intros z [<-|Hz]; auto.
Qed.

Lemma negative_token_absent (c : ascii) (digits : string) :
  Ascii.eqb "-" c = false ->
  (forall a, is_digit a = true -> Ascii.eqb a c = false) ->
  all_digits digits = true ->
  contains c (negative_token digits) = false.
Proof.
  intros Hm Hc Hd. unfold negative_token. cbn [contains]. rewrite Hm. cbn [orb].
  apply all_chars_absent. apply (all_chars_impl is_digit); [|exact Hd].
  intros a Ha. now rewrite (Hc a Ha).
Qed.

(** ** The remainder of a renumbered segment *)

Lemma cite_text (urls : list SourceRef) (ref_num : Z) (acc acc' : state * list string) :
  cite urls ref_num acc = OK acc' -> formatted_text (fst acc') = formatted_text (fst acc).
Proof.
  destruct acc as [st cits]. unfold cite.
  destruct ((ref_num <=? len urls) && (ref_num >? 0)); [|now intros [= <-]].
  destruct (index urls (ref_num - 1)); cbn [bind]; [|discriminate].
  destruct (negb _); now intros [= <-].
Qed.

Lemma cite_all_text (urls : list SourceRef) (ref_numbers : list Z) :
  forall acc acc',
    cite_all urls ref_numbers acc = OK acc' ->
    formatted_text (fst acc') = formatted_text (fst acc).
Proof.
  induction ref_numbers as [|n ns IH]; intros acc acc'; simpl.
  - now intros [= <-].
  - destruct (cite urls n acc) as [acc1|] eqn:E; cbn [bind]; [|discriminate].
    intros H. rewrite (IH _ _ H). now apply cite_text in E.
Qed.

(** Behind a marker that parses, a segment is written up to its second
    [']'] only. *)
Lemma process_part_cuts_remainder (urls : list SourceRef) (st : state)
      (reference_str between after : string) (ref_numbers : list Z) :
  contains "]" reference_str = false ->
  contains "]" between = false ->
  parse_marker reference_str = OK ref_numbers ->
  exists st' marker,
    process_part urls st (reference_str ++ "]" ++ between ++ "]" ++ after) = OK st'
    /\ formatted_text st' = formatted_text st ++ "[" ++ marker ++ "]" ++ between.
Proof.
  intros Hr Hb P.
  destruct (cite_all_returns urls ref_numbers (st, [])) as [[st' cits] C].
  pose proof (split_marker reference_str (between ++ "]" ++ after) Hr) as S.
  change (between ++ "]" ++ after) with (between ++ String "]" after) in S at 2 3.
  rewrite (split_first _ _ _ Hb) in S. cbn [hd tl] in S.
  rewrite (process_part_parsed _ _ _ _ _ _ _ _ _ S P C).
  apply cite_all_text in C. cbn [fst] in C.
  eexists. eexists. split; [reflexivity|].
  cbn [add_text formatted_text]. rewrite C. reflexivity.
Qed.

(** C1, on the code: the text behind a marker is not kept whole.  On
    ["[1] a] b"] with one reference the output stops after ["[1] a"]: the
    ["] b"] that follows is lost, for a renumbered marker and for one
    whose index is out of range alike. *)
Theorem remainder_after_marker_is_cut :
  format_citations "[1] a] b" [ {| uri := "https://x" |} ]
  = OK ("[1] a" ++ nl ++ nl ++ "**References:**" ++ nl ++ "[1] https://x" ++ nl)
  /\ format_citations "[9] a] b" [ {| uri := "https://x" |} ] = OK "[9] a".
Proof. split; reflexivity. Qed.

(** ** Texts without a valid marker *)

Lemma split_inverse (c : ascii) (s : string) :
  s = hd EmptyString (split c s) ++ concat_map (String c) (tl (split c s)).
Proof.
  induction s as [|a s IH]; simpl; [reflexivity|].
  destruct (split c s) as [|p ps] eqn:S; [now apply split_not_nil in S|].
  cbn [hd tl] in IH.
  destruct (Ascii.eqb a c) eqn:E; cbn [hd tl concat_map append].
  - apply Ascii.eqb_eq in E. subst a. now rewrite <- IH.
  - now rewrite <- IH.
Qed.

Lemma concat_map_ext (f g : string -> string) (l : list string) :
  (forall x, In x l -> f x = g x) -> concat_map f l = concat_map g l.
Proof.
  induction l as [|x l IH]; intros H; simpl; [reflexivity|].
  rewrite (H x) by now left.
  rewrite IH; [reflexivity|]. intros y Hy. apply H. now right.
Qed.

Lemma cited_urls_nil (urls : list SourceRef) (parts : list string) :
  cited_urls urls parts = [] -> forall part, In part parts -> part_urls urls part = [].
Proof.
  unfold cited_urls. induction parts as [|p ps IH]; simpl; [contradiction|].
  intros H. apply app_eq_nil in H as [Hp Hps].
  intros part [<-|Hin]; auto.
Qed.

Lemma enumerate_nil (seen : list string) : enumerate seen = [] -> seen = [].
Proof. now destruct seen. Qed.

(** The pass-through is the identity on a segment unless its marker
    parses and a second [']'] follows. *)
Lemma pass_through_verbatim (part : string) :
  (forall reference_str tail l,
     split "]" part = reference_str :: tail :: l ->
     l = [] \/ exists e, parse_marker reference_str = Raise e) ->
  pass_through part = "[" ++ part.
Proof.
  intros H. unfold pass_through.
  pose proof (split_inverse "]" part) as Hinv.
  destruct (split "]" part) as [|r [|t l]] eqn:S; try reflexivity.
  destruct (H r t l eq_refl) as [->|[e ->]]; [|reflexivity].
  destruct (parse_marker r); [|reflexivity].
  cbn [hd tl concat_map] in Hinv. rewrite append_nil_r in Hinv.
  rewrite Hinv. reflexivity.
Qed.

(** ** The list of references *)

Lemma quote_bytes_app (safe : string) (bs bs' : list N) :
  quote_bytes safe (bs ++ bs') = quote_bytes safe bs ++ quote_bytes safe bs'.
Proof.
  induction bs as [|b bs IH]; simpl; [reflexivity|].
  now rewrite IH, append_assoc.
Qed.

Lemma quote_cons (a : ascii) (s safe : string) :
  quote (String a s) safe = quote (String a EmptyString) safe ++ quote s safe.
Proof.
  unfold quote. cbn [utf8]. now rewrite app_nil_r, quote_bytes_app.
Qed.

Lemma quote_kept (a : ascii) :
  kept_by_quote a = true -> quote (String a EmptyString) ":/" = String a EmptyString.
Proof.
  destruct a as [[] [] [] [] [] [] [] []]; vm_compute; intros H;
    (discriminate H || reflexivity).
Qed.




(** ** Further properties of the formatter *)

(** X1. A text without ['['] is returned as it is, whatever the references. *)
Theorem text_without_bracket_unchanged (text : string) (urls : list SourceRef) :
  contains "[" text = false -> format_citations text urls = OK text.
Proof.
  intros H. unfold format_citations, run_parts.
  rewrite (split_absent _ _ H). reflexivity.
Qed.

Lemma text_without_bracket_unchanged_witness :
  format_citations "2 < 3] and a]b" example_refs = OK "2 < 3] and a]b".
Proof. apply text_without_bracket_unchanged. reflexivity. Defined.

(** X2. Normalizing a URL twice is normalizing it once. *)
Theorem parse_external_link_idempotent (url : string) :
  parse_external_link (parse_external_link url) = parse_external_link url.
Proof.
  destruct (String.prefix "gs://" url) eqn:E.
  - destruct (prefix_cut _ _ E) as [rest ->].
    rewrite parse_external_link_gs.
    apply parse_external_link_other. reflexivity.
  - now rewrite !(parse_external_link_other url E).
Qed.

Lemma url_at_index (urls : list SourceRef) (n : Z) (r : SourceRef) :
  index urls (n - 1) = OK r -> url_at urls n = parse_external_link (uri r).
Proof. unfold url_at. now intros ->. Qed.

(** X3. A bucket URI and the public URL of the same object are one source:
    cited together from a fresh table they get the number 1 both, and
    the table one entry. *)
Theorem bucket_and_public_url_share_number
        (urls : list SourceRef) (i j : Z) (ri rj : SourceRef) (rest first : string) :
  valid_index urls i = true ->
  valid_index urls j = true ->
  index urls (i - 1) = OK ri ->
  index urls (j - 1) = OK rj ->
  uri ri = "gs://" ++ rest ->
  uri rj = "https://storage.cloud.google.com/" ++ rest ->
  exists st,
    cite_all urls [i; j] (initial_state first, []) = OK (st, ["1"; "1"])
    /\ references st = [(1, "https://storage.cloud.google.com/" ++ rest)].
Proof.
  intros Vi Vj Hi Hj Ui Uj.
  destruct (cite_all_spec urls [i; j] (initial_state first) [] [] (table_of_initial first))
    as (st & Hc & (Hrefs & _) & _).
  revert Hc Hrefs. unfold marker_urls. cbn [filter]. rewrite Vi, Vj. cbn [map app].
  rewrite (url_at_index _ _ _ Hi), (url_at_index _ _ _ Hj), Ui, Uj.
  rewrite parse_external_link_gs.
  rewrite (parse_external_link_other ("https://storage.cloud.google.com/" ++ rest))
    by reflexivity.
  cbn [first_seen_from existsb app]. rewrite String.eqb_refl. cbn [orb number_of].
  rewrite String.eqb_refl.
  intros Hc Hrefs. exists st. split; [exact Hc | exact Hrefs].
Qed.

Lemma bucket_and_public_url_share_number_witness :
  exists st,
    cite_all [ {| uri := "gs://b/o" |}; {| uri := "https://storage.cloud.google.com/b/o" |} ]
             [1; 2] (initial_state "", []) = OK (st, ["1"; "1"])
    /\ references st = [(1, "https://storage.cloud.google.com/b/o")].
Proof.
  apply (bucket_and_public_url_share_number _ 1 2
           {| uri := "gs://b/o" |} {| uri := "https://storage.cloud.google.com/b/o" |}
           "b/o" "");
    reflexivity.
Defined.

Lemma index_In {A : Type} (l : list A) (i : Z) (x : A) : index l i = OK x -> In x l.
Proof.
  unfold index. destruct (_ <? 0); [discriminate|].
  destruct (nth_error l _) eqn:E; [|discriminate].
  intros [= <-]. now apply nth_error_In in E.
Qed.

Lemma first_seen_from_incl (us : list string) :
  forall seen u, In u (first_seen_from seen us) -> In u seen \/ In u us.
Proof.
  induction us as [|v us IH]; intros seen u; simpl; [auto|].
  destruct (existsb _ seen); intros H; apply IH in H.
  - destruct H; auto.
  - destruct H as [H|H]; [|auto].
    apply in_app_or in H as [H|[<-|[]]]; auto.
Qed.

Lemma marker_urls_In (urls : list SourceRef) (ref_numbers : list Z) (u : string) :
  In u (marker_urls urls ref_numbers) ->
  In u (map (fun r => parse_external_link (uri r)) urls).
Proof.
  unfold marker_urls. intros H.
  apply in_map_iff in H as (n & <- & Hn).
  apply filter_In in Hn as [_ V]. unfold valid_index in V.
  apply andb_true_iff in V as [G1 G2].
  apply Z.leb_le in G1. apply Z.gtb_lt in G2.
  destruct (index_valid urls n) as [r Hr]; [lia|].
  rewrite (url_at_index _ _ _ Hr).
  apply in_map_iff. exists r. split; [reflexivity | now apply index_In in Hr].
Qed.

Lemma cited_urls_In (urls : list SourceRef) (parts : list string) (u : string) :
  In u (cited_urls urls parts) ->
  In u (map (fun r => parse_external_link (uri r)) urls).
Proof.
  unfold cited_urls. intros H.
  apply in_flat_map in H as (part & _ & H).
  unfold part_urls in H.
  destruct (split "]" part) as [|a [|b l]]; try contradiction.
  destruct (parse_marker a); [|contradiction].
  now apply marker_urls_In in H.
Qed.

Lemma enumerate_from_length (seen : list string) :
  forall k, List.length (enumerate_from k seen) = List.length seen.
Proof.
  induction seen as [|u seen IH]; intros k; simpl; [reflexivity | now rewrite IH].
Qed.

Lemma enumerate_from_urls (seen : list string) :
  forall k, map snd (enumerate_from k seen) = seen.
Proof.
  induction seen as [|u seen IH]; intros k; simpl; [reflexivity | now rewrite IH].
Qed.

Lemma enumerate_from_range (seen : list string) :
  forall j k u, In (k, u) (enumerate_from j seen) -> j <= k < j + len seen.
Proof.
  induction seen as [|v seen IH]; intros j k u; cbn [enumerate_from In]; [contradiction|].
  rewrite len_cons. pose proof (len_nonneg seen) as Hlen.
  intros [[= -> ->]|H]; [lia|].
  apply IH in H. lia.
Qed.

(** X4. The table never has more entries than there are references, and the
    counter is always one past its last number. *)
Theorem table_size_bounded (text : string) (urls : list SourceRef) :
  exists st,
    run_parts text urls = OK st
    /\ len (references st) <= len urls
    /\ reference_counter st = len (references st) + 1.
Proof.
  destruct (run_parts_spec text urls) as (st & Hrun & (Hrefs & Hnd & Hctr) & _).
  exists st. split; [exact Hrun|].
  set (seen := first_seen (cited_urls urls (tl (split "[" text)))) in *.
  assert (Hlen : len (references st) = len seen).
  { unfold len. rewrite Hrefs. unfold enumerate. now rewrite enumerate_from_length. }
  rewrite Hlen. split; [|exact Hctr].
  unfold len. apply inj_le.
  rewrite <- (length_map (fun r => parse_external_link (uri r)) urls).
  apply NoDup_incl_length; [exact Hnd|].
  intros u Hu. apply first_seen_from_incl in Hu as [[]|Hu].
  now apply cited_urls_In in Hu.
Qed.

(** X6. The list of references holds exactly the URLs the text cites, and
    there is a list if and only if the text cites one. *)
Theorem references_are_the_cited_urls (text : string) (urls : list SourceRef) :
  exists st,
    run_parts text urls = OK st
    /\ (forall u, In u (map snd (references st))
                  <-> In u (cited_urls urls (tl (split "[" text))))
    /\ (forall k u, In (k, u) (references st) -> 1 <= k <= len (references st))
    /\ (references st = [] <-> cited_urls urls (tl (split "[" text)) = []).
Proof.
  destruct (run_parts_spec text urls) as (st & Hrun & (Hrefs & Hnd & Hctr) & _).
  exists st. split; [exact Hrun|].
  set (cited := cited_urls urls (tl (split "[" text))) in *.
  rewrite Hrefs. unfold enumerate. rewrite enumerate_from_urls.
  split; [|split].
  - intros u. split.
    + intros H. now apply first_seen_from_incl in H as [[]|H].
    + intros H. apply first_seen_from_In. now right.
  - intros k u H. apply enumerate_from_range in H.
    unfold len in *. rewrite enumerate_from_length. lia.
  - split.
    + intros H. apply (first_seen_from_nil cited []). fold (first_seen cited).
      destruct (first_seen cited); [reflexivity | discriminate H].
    + intros ->. reflexivity.
Qed.

Lemma references_are_the_cited_urls_witness :
  exists st,
    run_parts "a [2] b [9]" example_refs = OK st
    /\ In "https://example.com/b" (map snd (references st))
    /\ (forall k u, In (k, u) (references st) -> 1 <= k <= len (references st)).
Proof.
  destruct (references_are_the_cited_urls "a [2] b [9]" example_refs)
    as (st & Hrun & Hiff & Hrange & _).
  exists st. split; [exact Hrun|]. split; [|exact Hrange].
  apply Hiff. left. reflexivity.
Defined.

Lemma in_values_find (url : string) (refs : list (Z * string)) :
  in_values url refs = true -> exists ref_id, find_ref_id url refs = Some ref_id.
Proof.
  induction refs as [|[k v] refs IH]; simpl; [discriminate|].
  destruct (String.eqb v url); [now eexists | exact IH].
Qed.

Lemma cite_count (urls : list SourceRef) (ref_num : Z) (st : state) (cits : list string) :
  exists st' cits',
    cite urls ref_num (st, cits) = OK (st', cits')
    /\ List.length cits'
       = (List.length cits + if valid_index urls ref_num then 1 else 0)%nat.
Proof.
  unfold cite, valid_index.
  destruct ((ref_num <=? len urls) && (ref_num >? 0)) eqn:G.
  - apply andb_true_iff in G as [G1 G2].
    apply Z.leb_le in G1. apply Z.gtb_lt in G2.
    destruct (index_valid urls ref_num) as [r ->]; [lia|]. cbn [bind].
    destruct (in_values _ (references st)) eqn:E; cbn [negb].
    + destruct (in_values_find _ _ E) as [k ->].
      eexists. eexists. split; [reflexivity|]. now rewrite length_app.
    + eexists. eexists. split; [reflexivity|]. now rewrite length_app.
  - eexists. eexists. split; [reflexivity|]. lia.
Qed.

(** X5. A marker gets one number for each of its valid indices, none for
    the others: an index that occurs twice is written twice. *)
Theorem one_number_per_valid_index (urls : list SourceRef) (ref_numbers : list Z) :
  forall st cits,
  exists st' cits',
    cite_all urls ref_numbers (st, cits) = OK (st', cits')
    /\ List.length cits'
       = (List.length cits + List.length (filter (valid_index urls) ref_numbers))%nat.
Proof.
  induction ref_numbers as [|n ns IH]; intros st cits; cbn [cite_all filter].
  - exists st, cits. split; [reflexivity | cbn; lia].
  - destruct (cite_count urls n st cits) as (st1 & cits1 & -> & H1). cbn [bind].
    destruct (IH st1 cits1) as (st' & cits' & -> & H').
    exists st', cits'. split; [reflexivity|].
    rewrite H', H1. destruct (valid_index urls n); cbn [List.length]; lia.
Qed.

Lemma all_chars_app (q : ascii -> bool) (s t : string) :
  all_chars q (s ++ t) = all_chars q s && all_chars q t.
Proof.
  induction s as [|a s IH]; simpl; [reflexivity|].
  now rewrite IH, andb_assoc.
Qed.

Lemma all_chars_contains (q : ascii -> bool) (c : ascii) (s : string) :
  all_chars q s = true -> q c = false -> contains c s = false.
Proof.
  intros Hs Hc. induction s as [|a s IH]; simpl in *; [reflexivity|].
  apply andb_true_iff in Hs as [Ha Hs]. rewrite (IH Hs), orb_false_r.
  destruct (Ascii.eqb_spec a c) as [->|]; [congruence | reflexivity].
Qed.

Lemma quote_char_alphabet (a : ascii) :
  all_chars (fun c => kept_by_quote c || Ascii.eqb c "%")
            (quote (String a EmptyString) ":/") = true.
Proof. destruct a as [[] [] [] [] [] [] [] []]; reflexivity. Qed.

(** X7. A quoted URL is made of letters, digits and [_.-~:/%] only: it
    holds no space, no line break and no bracket. *)
Theorem quote_alphabet (s : string) :
  all_chars (fun c => kept_by_quote c || Ascii.eqb c "%") (quote s ":/") = true
  /\ contains (ascii_of_nat 10) (quote s ":/") = false
  /\ contains " " (quote s ":/") = false
  /\ contains "[" (quote s ":/") = false
  /\ contains "]" (quote s ":/") = false.
Proof.
  assert (H : all_chars (fun c => kept_by_quote c || Ascii.eqb c "%") (quote s ":/") = true).
  { induction s as [|a s IH]; [reflexivity|].
    now rewrite quote_cons, all_chars_app, quote_char_alphabet, IH. }
  split; [exact H|].
  repeat split; apply (all_chars_contains _ _ _ H); reflexivity.
Qed.

(** X8. A URL made of characters that need no escape is quoted to itself. *)
Theorem quote_of_plain_url (s : string) :
  all_chars kept_by_quote s = true -> quote s ":/" = s.
Proof.
  induction s as [|a s IH]; [reflexivity|]. simpl.
  intros H. apply andb_true_iff in H as [Ha Hs].
  now rewrite quote_cons, (quote_kept a Ha), (IH Hs).
Qed.

Lemma quote_of_plain_url_witness :
  quote "https://storage.cloud.google.com/bucket/a.pdf" ":/"
  = "https://storage.cloud.google.com/bucket/a.pdf".
Proof. apply quote_of_plain_url. reflexivity. Defined.

(** ** Texts that cite nothing *)

Lemma format_citations_uncited (text : string) (urls : list SourceRef) :
  cited_urls urls (tl (split "[" text)) = [] ->
  format_citations text urls
  = OK (hd EmptyString (split "[" text)
        ++ concat_map pass_through (tl (split "[" text))).
Proof.
  intros Hc. unfold format_citations.
  destruct (run_parts_spec text urls) as (st & -> & (Hrefs & _) & Hf).
  cbn [bind]. rewrite Hc in Hrefs, Hf. rewrite Hrefs. cbn.
  rewrite Hf. f_equal. f_equal. apply concat_map_ext.
  intros part Hin. unfold rewritten.
  now rewrite (cited_urls_nil urls _ Hc part Hin).
Qed.

Lemma cited_urls_no_refs (parts : list string) : cited_urls [] parts = [].
Proof.
  unfold cited_urls. induction parts as [|p ps IH]; [reflexivity|].
  cbn [flat_map]. rewrite IH, app_nil_r. unfold part_urls.
  destruct (split "]" p) as [|a [|b l]]; try reflexivity.
  destruct (parse_marker a) as [nums|]; [|reflexivity].
  unfold marker_urls. induction nums as [|n ns IHn]; [reflexivity|].
  cbn [filter]. replace (valid_index [] n) with false; [exact IHn|].
  symmetry. apply out_of_range. unfold len. simpl. lia.
Qed.

(** X10. Without references nothing is renumbered and no list is appended,
    whatever the text. *)
Theorem no_references_given (text : string) :
  format_citations text []
  = OK (hd EmptyString (split "[" text)
        ++ concat_map pass_through (tl (split "[" text))).
Proof. apply format_citations_uncited, cited_urls_no_refs. Qed.

(** X11. A text that cites nothing is returned as it is, provided no segment
    with an integer marker holds a second [']']. *)
Theorem uncited_text_unchanged (text : string) (urls : list SourceRef) :
  cited_urls urls (tl (split "[" text)) = [] ->
  (forall part, In part (tl (split "[" text)) ->
     forall reference_str tail l,
       split "]" part = reference_str :: tail :: l ->
       l = [] \/ exists e, parse_marker reference_str = Raise e) ->
  format_citations text urls = OK text.
Proof.
  intros Hc Hshape. rewrite (format_citations_uncited text urls Hc).
  rewrite (split_inverse "[" text) at 3. f_equal. f_equal.
  apply concat_map_ext. intros part Hin.
  apply pass_through_verbatim. now apply Hshape.
Qed.

Lemma uncited_text_unchanged_witness :
  format_citations "a [0] b [x] y] z [12" example_refs = OK "a [0] b [x] y] z [12".
Proof.
  apply uncited_text_unchanged; [reflexivity|].
  intros part [<-|[<-|[<-|[]]]] r t l; cbn; intros [= <- <- <-];
    (now left) || (right; now eexists).
Defined.

(** ** Decimal markers *)














(** ** Configuration and client *)

Lemma truthy_false (v : option string) :
  truthy v = false <-> v = None \/ v = Some EmptyString.
Proof.
  destruct v as [[|a s]|]; simpl; split; intros H; auto; try discriminate.
  - destruct H as [H|H]; discriminate H.
Qed.

(** X12. Start-up fails, with [ValueError], exactly when [PROJECT_ID] or
    [DATA_STORE_ID] is not set or is empty; [LOCATION] is never
    required, and is ["global"] when it is not set. *)
Theorem startup_requires_ids (environ : string -> option string) :
  (startup environ = Raise ValueError
   <-> (environ "PROJECT_ID" = None \/ environ "PROJECT_ID" = Some EmptyString)
       \/ (environ "DATA_STORE_ID" = None \/ environ "DATA_STORE_ID" = Some EmptyString))
  /\ (forall cfg, startup environ = OK cfg ->
        cfg = load_config environ
        /\ truthy (PROJECT_ID cfg) = true /\ truthy (DATA_STORE_ID cfg) = true
        /\ (environ "LOCATION" = None -> LOCATION cfg = "global")).
Proof.
  unfold startup, validate_config. cbn [forallb load_config PROJECT_ID DATA_STORE_ID].
  rewrite andb_true_r. split.
  - rewrite <- !truthy_false.
    destruct (truthy (environ "PROJECT_ID")), (truthy (environ "DATA_STORE_ID"));
      cbn [andb negb]; split; intros H; auto; try discriminate H;
      destruct H as [H|H]; discriminate H.
  - intros cfg.
    destruct (truthy (environ "PROJECT_ID")) eqn:EP,
             (truthy (environ "DATA_STORE_ID")) eqn:ED;
      cbn [andb negb]; intros [= <-].
    split; [reflexivity|]. split; [exact EP|]. split; [exact ED|].
    intros H. cbn. unfold environ_get. now rewrite H.
Qed.

Lemma startup_requires_ids_witness :
  startup (fun key => if String.eqb key "PROJECT_ID" then Some "p" else None)
  = Raise ValueError.
Proof.
  apply (startup_requires_ids
           (fun key => if String.eqb key "PROJECT_ID" then Some "p" else None)).
  right. left. reflexivity.
Defined.

Lemma length_append (s t : string) :
  String.length (s ++ t) = (String.length s + String.length t)%nat.
Proof. induction s as [|a s IH]; simpl; [reflexivity | now rewrite IH]. Qed.

Lemma append_cancel_r (s t u : string) : s ++ u = t ++ u -> s = t.
Proof.
  revert t. induction s as [|a s IH]; intros [|b t] H.
  - reflexivity.
  - apply (f_equal String.length) in H. simpl in H. rewrite length_append in H. lia.
  - apply (f_equal String.length) in H. simpl in H. rewrite length_append in H. lia.
  - simpl in H. injection H as -> H. now rewrite (IH t H).
Qed.

(** X13. The client keeps the default endpoint for the location ["global"]
    only, which is also the location when [LOCATION] is not set; any
    other location, the empty one too, gets an endpoint of its own, and
    two locations never get the same. *)
Theorem initialize_client_endpoint :
  (forall cfg, initialize_client cfg = None <-> LOCATION cfg = "global")
  /\ (forall environ, environ "LOCATION" = None ->
        initialize_client (load_config environ) = None)
  /\ (forall cfg cfg' endpoint,
        initialize_client cfg = Some endpoint ->
        initialize_client cfg' = Some endpoint ->
        LOCATION cfg = LOCATION cfg')
  /\ (forall cfg, LOCATION cfg <> "global" ->
        initialize_client cfg = Some (LOCATION cfg ++ "-discoveryengine.googleapis.com")).
Proof.
  split; [|split; [|split]]; cycle 3.
  { intros cfg H. unfold initialize_client.
    destruct (String.eqb_spec (LOCATION cfg) "global"); [contradiction | reflexivity]. }
  - intros cfg. unfold initialize_client.
    destruct (String.eqb_spec (LOCATION cfg) "global"); cbn [negb];
      split; intros H; auto; discriminate || contradiction.
  - intros environ H. unfold initialize_client, load_config, environ_get. cbn.
    now rewrite H.
  - intros cfg cfg' endpoint. unfold initialize_client.
    destruct (negb _); [|discriminate]. destruct (negb _); [|discriminate].
    intros [= <-] [= H]. symmetry. now apply append_cancel_r in H.
Qed.

Lemma initialize_client_endpoint_witness :
  initialize_client (load_config (fun _ => None)) = None
  /\ initialize_client (load_config (fun key => if String.eqb key "LOCATION" then Some "" else None))
     = Some "-discoveryengine.googleapis.com"
  /\ initialize_client (load_config (fun key => if String.eqb key "LOCATION" then Some "us" else None))
     = Some "us-discoveryengine.googleapis.com".
Proof.
  destruct initialize_client_endpoint as (_ & H & _ & Hvalue).
  split; [now apply H|].
  split; apply Hvalue; cbn; discriminate.
Defined.

(** ** The chat handlers *)

(** The search makes one call, sends one message and leaves the stored
    names alone. *)
Lemma answer_effect (exception_text : exn -> string) (sid : nat) (query conversation : string)
      (reply : outcome Reply) (w : world) :
  exists m,
    sent (answer exception_text sid query conversation reply w) = (sent w ++ [(sid, m)])%list
    /\ calls (answer exception_text sid query conversation reply w)
       = (calls w ++ [ConverseConversation conversation query])%list
    /\ user_session (answer exception_text sid query conversation reply w) = user_session w
    /\ GLOBAL_CONVERSATION_NAME (answer exception_text sid query conversation reply w)
       = GLOBAL_CONVERSATION_NAME w.
Proof.
  unfold answer. destruct reply as [response|e]; [|eexists; now cbn].
  destruct (summary_references response) as [refs|]; [|eexists; now cbn].
  destruct (format_citations (summary_text response) refs); eexists; now cbn.
Qed.

Lemma on_message_named (exception_text : exn -> string) (sid : nat) (query : string)
      (created : outcome string) (reply : outcome Reply) (w : world) (conversation : string) :
  conversation <> EmptyString ->
  (user_session w sid = Some conversation
   \/ truthy (user_session w sid) = false
      /\ GLOBAL_CONVERSATION_NAME w = Some conversation) ->
  on_message exception_text sid query created reply w
  = answer exception_text sid query conversation reply w.
Proof.
  intros Hne H. unfold on_message.
  destruct conversation as [|a s]; [now elim Hne|].
  destruct H as [->|[-> ->]]; reflexivity.
Qed.

(** X14. A message in a session that holds a conversation is searched in
    that conversation: no conversation is created, whatever
    [initialize_conversation] would give, and the stored names stay. *)
Theorem on_message_uses_session (exception_text : exn -> string) (sid : nat) (query : string)
        (created : outcome string) (reply : outcome Reply) (w : world) (conversation : string) :
  user_session w sid = Some conversation ->
  conversation <> EmptyString ->
  let w' := on_message exception_text sid query created reply w in
  calls w' = (calls w ++ [ConverseConversation conversation query])%list
  /\ user_session w' = user_session w
  /\ GLOBAL_CONVERSATION_NAME w' = GLOBAL_CONVERSATION_NAME w.
Proof.
  intros Hs Hne. cbn zeta.
  rewrite (on_message_named _ _ _ _ _ _ conversation Hne) by now left.
  destruct (answer_effect exception_text sid query conversation reply w)
    as (m & _ & Hc & Hu & Hg).
  auto.
Qed.

Lemma on_message_uses_session_witness :
  calls (on_message (fun _ => "") 0 "q" (Failed "down") (Failed "busy")
           (on_chat_start 0 (Returned "c1") initial_world))
  = [CreateConversation (Returned "c1"); ConverseConversation "c1" "q"].
Proof.
  apply (on_message_uses_session (fun _ => "") 0 "q" (Failed "down") (Failed "busy")
           (on_chat_start 0 (Returned "c1") initial_world) "c1");
    [reflexivity | discriminate].
Defined.

(** X15. A message in a session without a conversation is searched in the
    global one when there is one; the session is not given it. *)
Theorem on_message_falls_back_to_global
        (exception_text : exn -> string) (sid : nat) (query : string)
        (created : outcome string) (reply : outcome Reply) (w : world) (conversation : string) :
  truthy (user_session w sid) = false ->
  GLOBAL_CONVERSATION_NAME w = Some conversation ->
  conversation <> EmptyString ->
  let w' := on_message exception_text sid query created reply w in
  calls w' = (calls w ++ [ConverseConversation conversation query])%list
  /\ user_session w' = user_session w
  /\ truthy (user_session w' sid) = false
  /\ GLOBAL_CONVERSATION_NAME w' = Some conversation.
Proof.
  intros Hs Hg Hne. cbn zeta.
  rewrite (on_message_named _ _ _ _ _ _ conversation Hne) by (right; now split).
  destruct (answer_effect exception_text sid query conversation reply w)
    as (m & _ & Hc & Hu & Hg').
  rewrite Hu, Hg', Hg. auto.
Qed.

Lemma on_message_falls_back_to_global_witness :
  let w := on_message (fun _ => "") 1 "q" (Failed "down") (Failed "busy")
             (on_chat_start 0 (Returned "c1") initial_world) in
  calls w = [CreateConversation (Returned "c1"); ConverseConversation "c1" "q"]
  /\ user_session w 1%nat = None.
Proof.
  destruct (on_message_falls_back_to_global (fun _ => "") 1 "q" (Failed "down")
              (Failed "busy") (on_chat_start 0 (Returned "c1") initial_world) "c1")
    as (Hc & Hu & _); [reflexivity | reflexivity | discriminate |].
  split; [exact Hc | now rewrite Hu].
Defined.

(** X16. A message when neither the session nor the global holds a
    conversation: one is created.  If that succeeds its name is stored
    in the session and in the global and the search goes to it; if it
    fails the user gets the one error message, nothing is searched and
    nothing is stored. *)
Theorem on_message_creates_conversation
        (exception_text : exn -> string) (sid : nat) (query : string)
        (reply : outcome Reply) (w : world) :
  truthy (user_session w sid) = false ->
  truthy (GLOBAL_CONVERSATION_NAME w) = false ->
  (forall conversation,
     let w' := on_message exception_text sid query (Returned conversation) reply w in
     calls w' = (calls w ++ [CreateConversation (Returned conversation);
                             ConverseConversation conversation query])%list
     /\ user_session w' sid = Some conversation
     /\ GLOBAL_CONVERSATION_NAME w' = Some conversation
     /\ (forall s, s <> sid -> user_session w' s = user_session w s))
  /\ (forall e,
        let w' := on_message exception_text sid query (Failed e) reply w in
        calls w' = (calls w ++ [CreateConversation (Failed e)])%list
        /\ sent w' = (sent w ++ [(sid, error_message ("Failed to initialize conversation: " ++ e))])%list
        /\ user_session w' = user_session w
        /\ GLOBAL_CONVERSATION_NAME w' = GLOBAL_CONVERSATION_NAME w).
Proof.
  intros Hs Hg.
  assert (E : forall created,
             on_message exception_text sid query created reply w
             = let w := record_call (CreateConversation created) w in
               match created with
               | Returned conversation =>
                   answer exception_text sid query conversation reply
                          (session_set sid conversation (set_global conversation w))
               | Failed e =>
                   send sid (error_message ("Failed to initialize conversation: " ++ e)) w
               end).
  { intros created. unfold on_message. rewrite Hs. cbn [negb].
    destruct (GLOBAL_CONVERSATION_NAME w) as [[|a s]|]; (discriminate Hg || reflexivity). }
  split.
  - intros conversation. cbn zeta. rewrite E. cbn zeta.
    destruct (answer_effect exception_text sid query conversation reply
                (session_set sid conversation
                   (set_global conversation
                      (record_call (CreateConversation (Returned conversation)) w))))
      as (m & _ & -> & -> & ->).
    cbn. rewrite Nat.eqb_refl, <- app_assoc. repeat split.
    intros s Hne. apply Nat.eqb_neq in Hne. now rewrite Hne.
  - intros e. cbn zeta. rewrite E. cbn. auto.
Qed.

Lemma on_message_creates_conversation_witness :
  calls (on_message (fun _ => "") 0 "q" (Returned "c1") (Failed "busy") initial_world)
  = [CreateConversation (Returned "c1"); ConverseConversation "c1" "q"]
  /\ sent (on_message (fun _ => "") 0 "q" (Failed "down") (Failed "busy") initial_world)
     = [(0%nat, error_message "Failed to initialize conversation: down")].
Proof.
  destruct (on_message_creates_conversation (fun _ => "") 0 "q" (Failed "busy") initial_world)
    as [Hok Hfail]; [reflexivity | reflexivity |].
  split; [apply Hok | apply Hfail].
Defined.

Lemma handle_sent (exception_text : exn -> string) (w : world) (ev : event) :
  exists m, sent (handle exception_text w ev) = (sent w ++ [(event_session ev, m)])%list.
Proof.
  destruct ev as [sid created|sid created|sid query created reply];
    cbn [handle event_session].
  - unfold on_chat_start. destruct created; eexists; reflexivity.
  - unfold on_new_conversation. destruct created; eexists; reflexivity.
  - unfold on_message.
    assert (A : forall conversation w1, sent w1 = sent w ->
                exists m, sent (answer exception_text sid query conversation reply w1)
                          = (sent w ++ [(sid, m)])%list).
    { intros conversation w1 <-.
      destruct (answer_effect exception_text sid query conversation reply w1) as (m & -> & _).
      now exists m. }
    destruct (if negb (truthy (user_session w sid)) then GLOBAL_CONVERSATION_NAME w
              else user_session w sid) as [[|a s]|];
      try (now apply A);
      (destruct created; [now apply A | eexists; reflexivity]).
Qed.

(** X18. Every event is answered by exactly one message, sent to the session
    the event came from, in the order of the events. *)
Theorem one_message_per_event (exception_text : exn -> string) (evs : list event) :
  forall w,
    map fst (sent (run exception_text evs w))
    = (map fst (sent w) ++ map event_session evs)%list.
Proof.
  unfold run. induction evs as [|ev evs IH]; intros w; cbn [fold_left map].
  - now rewrite app_nil_r.
  - rewrite IH. destruct (handle_sent exception_text w ev) as [m ->].
    rewrite map_app, <- app_assoc. reflexivity.
Qed.

(** ** The stored names *)

Lemma last_created_app (cs : list call) (c : call) :
  last_created (cs ++ [c])
  = match c with
    | CreateConversation (Returned conversation) => Some conversation
    | _ => last_created cs
    end.
Proof.
  induction cs as [|c' cs IH]; cbn [app last_created].
  - now destruct c as [[]|].
  - rewrite IH. now destruct c as [[]|].
Qed.

Lemma created_names_app (cs : list call) (c : call) :
  created_names (cs ++ [c])
  = (created_names cs ++ match c with
                         | CreateConversation (Returned conversation) => [conversation]
                         | _ => []
                         end)%list.
Proof.
  induction cs as [|c' cs IH]; cbn [app created_names].
  - destruct c as [[]|]; reflexivity.
  - destruct c' as [[]|]; rewrite IH; reflexivity.
Qed.

Lemma created_names_last (cs : list call) (conversation : string) :
  In conversation (created_names cs) -> exists g, last_created cs = Some g.
Proof.
  induction cs as [|c cs IH]; cbn [created_names last_created]; [contradiction|].
  intros H. destruct (last_created cs) as [g|]; [now exists g|].
  destruct c as [[n|e]|]; try (now apply IH in H as [g Hg]).
  destruct H as [_|H]; [now exists n | now apply IH in H as [g Hg]].
Qed.

Lemma names_after_answer (exception_text : exn -> string) (sid : nat)
      (query conversation : string) (reply : outcome Reply) (w : world) :
  names_from_service w ->
  names_from_service (answer exception_text sid query conversation reply w).
Proof.
  intros [Hg Hs].
  destruct (answer_effect exception_text sid query conversation reply w)
    as (m & _ & Hc & Hu & Hg').
  unfold names_from_service. rewrite Hc, Hu, Hg', last_created_app, created_names_app.
  split; [exact Hg|]. intros s n H. rewrite app_nil_r. now apply (Hs s).
Qed.

Lemma names_after_creation (sid : nat) (conversation : string) (w : world) :
  names_from_service w ->
  names_from_service
    (session_set sid conversation
       (set_global conversation
          (record_call (CreateConversation (Returned conversation)) w))).
Proof.
  intros [Hg Hs]. unfold names_from_service. cbn.
  rewrite last_created_app, created_names_app. split; [reflexivity|].
  intros s n. destruct (Nat.eqb s sid).
  - intros [= ->]. apply in_or_app. right. now left.
  - intros H. apply in_or_app. left. now apply (Hs s).
Qed.

Lemma names_after_failure (e : string) (w : world) :
  names_from_service w ->
  names_from_service (record_call (CreateConversation (Failed e)) w).
Proof.
  intros [Hg Hs]. unfold names_from_service. cbn.
  rewrite last_created_app, created_names_app, app_nil_r. now split.
Qed.

Lemma names_after_send (sid : nat) (m : Message) (w : world) :
  names_from_service w -> names_from_service (send sid m w).
Proof. exact (fun H => H). Qed.

Lemma names_after_handle (exception_text : exn -> string) (w : world) (ev : event) :
  names_from_service w -> names_from_service (handle exception_text w ev).
Proof.
  intros H. destruct ev as [sid created|sid created|sid query created reply];
    cbn [handle].
  - unfold on_chat_start. destruct created.
    + now apply names_after_send, names_after_creation.
    + now apply names_after_send, names_after_failure.
  - unfold on_new_conversation. destruct created.
    + now apply names_after_send, names_after_creation.
    + now apply names_after_send, names_after_failure.
  - unfold on_message.
    destruct (if negb (truthy (user_session w sid)) then GLOBAL_CONVERSATION_NAME w
              else user_session w sid) as [[|a s]|];
      try (now apply names_after_answer);
      (destruct created;
       [now apply names_after_answer, names_after_creation
       | now apply names_after_send, names_after_failure]).
Qed.

(** X19. Whatever the events and whatever the service gives, the global
    holds the name given by the last creation that succeeded, and a
    name held by a session was given by a creation; so when some
    session holds a conversation, the global holds one too. *)
Theorem stored_names_come_from_service (exception_text : exn -> string) (evs : list event) :
  let w := run exception_text evs initial_world in
  GLOBAL_CONVERSATION_NAME w = last_created (calls w)
  /\ forall sid conversation,
       user_session w sid = Some conversation ->
       In conversation (created_names (calls w))
       /\ exists g, GLOBAL_CONVERSATION_NAME w = Some g.
Proof.
  cbn zeta.
  assert (H : names_from_service (run exception_text evs initial_world)).
  { unfold run.
    assert (G : forall w, names_from_service w ->
                names_from_service (fold_left (handle exception_text) evs w)).
    { induction evs as [|ev evs IH]; intros w Hw; [exact Hw|].
      cbn [fold_left]. now apply IH, names_after_handle. }
    apply G. split; [reflexivity|]. intros sid n H. discriminate H. }
  destruct H as [Hg Hs]. split; [exact Hg|].
  intros sid n H. pose proof (Hs sid n H) as Hin. split; [exact Hin|].
  rewrite Hg. now apply created_names_last in Hin.
Qed.

Lemma stored_names_come_from_service_witness :
  let w := run (fun _ => "")
               [ChatStart 0 (Returned "c1"); ChatStart 1 (Failed "down");
                NewConversation 0 (Returned "c2")]
               initial_world in
  user_session w 0%nat = Some "c2" /\ GLOBAL_CONVERSATION_NAME w = Some "c2"
  /\ In "c2" (created_names (calls w)).
Proof.
  cbn zeta. split; [reflexivity|]. split; [reflexivity|].
  destruct (stored_names_come_from_service (fun _ => "")
              [ChatStart 0 (Returned "c1"); ChatStart 1 (Failed "down");
               NewConversation 0 (Returned "c2")]) as [_ H].
  apply (H 0%nat "c2"). reflexivity.
Defined.

(** X20. After a chat start or a request for a new conversation has
    succeeded with a name, the next message of that session, and of any
    session that holds no conversation, is searched in that
    conversation, and no other is created. *)
Theorem message_after_new_conversation
        (exception_text : exn -> string) (sid sid' : nat) (conversation query : string)
        (created : outcome string) (reply : outcome Reply) (w : world) :
  conversation <> EmptyString ->
  sid' = sid \/ truthy (user_session w sid') = false ->
  calls (on_message exception_text sid' query created reply
           (on_chat_start sid (Returned conversation) w))
  = (calls w ++ [CreateConversation (Returned conversation);
                 ConverseConversation conversation query])%list
  /\ calls (on_message exception_text sid' query created reply
              (on_new_conversation sid (Returned conversation) w))
     = (calls w ++ [CreateConversation (Returned conversation);
                    ConverseConversation conversation query])%list.
Proof.
  intros Hne H.
  assert (G : forall w1,
             user_session w1 sid' = (if Nat.eqb sid' sid then Some conversation
                                     else user_session w sid') ->
             GLOBAL_CONVERSATION_NAME w1 = Some conversation ->
             calls w1 = (calls w ++ [CreateConversation (Returned conversation)])%list ->
             calls (on_message exception_text sid' query created reply w1)
             = (calls w ++ [CreateConversation (Returned conversation);
                            ConverseConversation conversation query])%list).
  { intros w1 Hu Hg Hc.
    rewrite (on_message_named _ _ _ _ _ w1 conversation Hne).
    - destruct (answer_effect exception_text sid' query conversation reply w1)
        as (m & _ & -> & _).
      now rewrite Hc, <- app_assoc.
    - rewrite Hu. destruct (Nat.eqb_spec sid' sid) as [E|E]; [now left|].
      right. destruct H as [H|H]; [contradiction | now split]. }
  split; apply G; reflexivity.
Qed.

Lemma message_after_new_conversation_witness :
  calls (on_message (fun _ => "") 7 "q" (Failed "down") (Failed "busy")
           (on_chat_start 0 (Returned "c1") initial_world))
  = [CreateConversation (Returned "c1"); ConverseConversation "c1" "q"].
Proof.
  apply (message_after_new_conversation (fun _ => "") 0 7 "c1" "q"
           (Failed "down") (Failed "busy") initial_world).
  - discriminate.
  - right. reflexivity.
Defined.

(** ** The full model: what can be raised *)

Lemma full_int_raises (s : string) (e : exn) : Full.int s = Raise e -> e = ValueError.
Proof.
  unfold Full.int. destruct (int_signed _); [|now intros [= <-]].
  destruct (_ <? _)%N; [now intros [= <-] | discriminate].
Qed.

Lemma full_parse_marker_raises (reference_str : string) (e : exn) :
  Full.parse_marker reference_str = Raise e -> e = ValueError.
Proof.
  unfold Full.parse_marker. generalize (split "," reference_str) as l.
  induction l as [|x xs IH]; simpl; [discriminate|].
  destruct (Full.int (strip x)) eqn:Ex; simpl.
  - destruct (comprehension _ xs); simpl; [discriminate|].
    intros [= <-]. now apply IH.
  - intros [= <-]. now apply full_int_raises in Ex.
Qed.

(** The URLs of the table are normalized URIs of the reference list. *)
Lemma full_dict_set_In (k : Z) (v : Full.ustring) (d : list (Z * Full.ustring))
      (entry : Z * Full.ustring) :
  In entry (Full.dict_set k v d) -> entry = (k, v) \/ In entry d.
Proof.
  induction d as [|[k' v'] d IH]; simpl.
  - intros [<-|[]]. now left.
  - destruct (k' =? k).
    + intros [<-|H]; [now left | right; now right].
    + intros [<-|H]; [right; now left|].
      destruct (IH H) as [->|H']; [now left | right; now right].
Qed.

Lemma full_cite_returns (urls : list Full.SourceRef) (ref_num : Z)
      (st : Full.state) (cits : list string) :
  (forall k u, In (k, u) (Full.references st) ->
     In u (map (fun r => Full.parse_external_link (Full.uri r)) urls)) ->
  exists st' cits',
    Full.cite urls ref_num (st, cits) = OK (st', cits')
    /\ Full.formatted_text st' = Full.formatted_text st
    /\ (forall k u, In (k, u) (Full.references st') ->
          In u (map (fun r => Full.parse_external_link (Full.uri r)) urls)).
Proof.
  intros Hinv. unfold Full.cite.
  destruct ((ref_num <=? len urls) && (ref_num >? 0)) eqn:G;
    [|exists st, cits; now repeat split].
  apply andb_true_iff in G as [G1 G2].
  apply Z.leb_le in G1. apply Z.gtb_lt in G2.
  destruct (index_valid urls ref_num) as [r Hr]; [lia|].
  rewrite Hr. cbn [bind].
  destruct (negb _); [|eexists; eexists; now repeat split].
  eexists. eexists. split; [reflexivity|]. split; [reflexivity|].
  cbn [Full.references]. intros k u H.
  apply full_dict_set_In in H as [[= -> ->]|H]; [|now apply (Hinv k)].
  apply in_map_iff. exists r. split; [reflexivity | now apply index_In in Hr].
Qed.

Lemma full_cite_all_returns (urls : list Full.SourceRef) (ref_numbers : list Z) :
  forall st cits,
    (forall k u, In (k, u) (Full.references st) ->
       In u (map (fun r => Full.parse_external_link (Full.uri r)) urls)) ->
    exists st' cits',
      Full.cite_all urls ref_numbers (st, cits) = OK (st', cits')
      /\ Full.formatted_text st' = Full.formatted_text st
      /\ (forall k u, In (k, u) (Full.references st') ->
            In u (map (fun r => Full.parse_external_link (Full.uri r)) urls)).
Proof.
  induction ref_numbers as [|n ns IH]; intros st cits Hinv; cbn [Full.cite_all].
  - exists st, cits. now repeat split.
  - destruct (full_cite_returns urls n st cits Hinv) as (st1 & cits1 & -> & Hf1 & H1).
    cbn [bind]. destruct (IH st1 cits1 H1) as (st' & cits' & -> & Hf' & H').
    exists st', cits'. split; [reflexivity|]. split; [congruence | exact H'].
Qed.

Lemma full_process_part_returns (urls : list Full.SourceRef) (st : Full.state)
      (part : string) :
  (forall k u, In (k, u) (Full.references st) ->
     In u (map (fun r => Full.parse_external_link (Full.uri r)) urls)) ->
  exists st',
    Full.process_part urls st part = OK st'
    /\ (forall k u, In (k, u) (Full.references st') ->
          In u (map (fun r => Full.parse_external_link (Full.uri r)) urls)).
Proof.
  intros Hinv. unfold Full.process_part, Full.try_body.
  destruct (contains "]" part) eqn:C; [|eexists; split; [reflexivity | exact Hinv]].
  destruct (split_contains _ _ C) as (a & b & l & ->).
  rewrite index_0. cbn [bind].
  destruct (Full.parse_marker a) as [nums|e] eqn:P; cbn [bind].
  - destruct (full_cite_all_returns urls nums st [] Hinv) as (st' & cits & -> & _ & H').
    cbn [bind]. rewrite index_1.
    destruct cits; cbn; eexists; (split; [reflexivity | exact H']).
  - apply full_parse_marker_raises in P. subst e. cbn.
    eexists. split; [reflexivity | exact Hinv].
Qed.

Lemma full_process_parts_returns (urls : list Full.SourceRef) (parts : list string) :
  forall st,
    (forall k u, In (k, u) (Full.references st) ->
       In u (map (fun r => Full.parse_external_link (Full.uri r)) urls)) ->
    exists st',
      Full.process_parts urls st parts = OK st'
      /\ (forall k u, In (k, u) (Full.references st') ->
            In u (map (fun r => Full.parse_external_link (Full.uri r)) urls)).
Proof.
  induction parts as [|p ps IH]; intros st Hinv; cbn [Full.process_parts].
  - now exists st.
  - destruct (full_process_part_returns urls st p Hinv) as (st1 & -> & H1).
    cbn [bind]. now apply IH.
Qed.

(** The loop never raises, whatever the text and the references. *)
Lemma full_run_parts_returns (text : string) (urls : list Full.SourceRef) :
  exists st,
    Full.run_parts text urls = OK st
    /\ (forall k u, In (k, u) (Full.references st) ->
          In u (map (fun r => Full.parse_external_link (Full.uri r)) urls)).
Proof.
  unfold Full.run_parts.
  destruct (split "[" text) as [|first rest] eqn:E; [now apply split_not_nil in E|].
  rewrite index_0. cbn [bind tl].
  apply full_process_parts_returns. intros k u [].
Qed.

Lemma full_utf8_code_point_cases (cp : N) :
  (Full.is_surrogate cp = false /\ exists bs, Full.utf8_code_point cp = OK bs)
  \/ (Full.is_surrogate cp = true /\ Full.utf8_code_point cp = Raise UnicodeEncodeError).
Proof.
  unfold Full.utf8_code_point, Full.is_surrogate.
  destruct (cp <? 128)%N eqn:E1.
  { left. split; [|now eexists]. apply N.ltb_lt in E1.
    apply andb_false_iff. left. apply N.leb_gt. lia. }
  destruct (cp <? 2048)%N eqn:E2.
  { left. split; [|now eexists]. apply N.ltb_lt in E2.
    apply andb_false_iff. left. apply N.leb_gt. lia. }
  destruct ((55296 <=? cp) && (cp <=? 57343))%N; [now right|].
  left. split; [reflexivity|]. destruct (cp <? 65536)%N; now eexists.
Qed.

(** Encoding succeeds exactly on strings without a surrogate, and fails
    with [UnicodeEncodeError] only. *)
Lemma full_utf8_cases (u : Full.ustring) :
  (Full.encodable u = true /\ exists bs, Full.utf8 u = OK bs)
  \/ (Full.encodable u = false /\ Full.utf8 u = Raise UnicodeEncodeError).
Proof.
  induction u as [|cp u IH]; [left; split; [reflexivity | now eexists]|].
  unfold Full.encodable in *. cbn [forallb Full.utf8].
  destruct (full_utf8_code_point_cases cp) as [[-> [bs ->]]|[-> ->]]; [|now right].
  cbn [negb andb bind].
  destruct IH as [[-> [rest ->]]|[-> ->]]; [left | right]; cbn [bind].
  - split; [reflexivity | now eexists].
  - now split.
Qed.

Lemma full_quote_cases (u : Full.ustring) (safe : string) :
  (Full.encodable u = true /\ exists quoted, Full.quote u safe = OK quoted)
  \/ (Full.encodable u = false /\ Full.quote u safe = Raise UnicodeEncodeError).
Proof.
  unfold Full.quote.
  destruct (full_utf8_cases u) as [[-> [bs ->]]|[-> ->]]; [left | right]; cbn [bind].
  - split; [reflexivity | now eexists].
  - now split.
Qed.

Lemma full_starts_with_cut (p u : Full.ustring) :
  Full.starts_with p u = true -> u = (p ++ skipn (List.length p) u)%list.
Proof.
  revert u. induction p as [|a p IH]; intros u; [reflexivity|].
  destruct u as [|b u]; cbn [Full.starts_with]; [discriminate|].
  intros H. apply andb_true_iff in H as [Hab Hp].
  apply N.eqb_eq in Hab. subst b. cbn [List.length skipn app].
  now rewrite <- (IH u Hp).
Qed.

(** Normalizing a URI neither adds nor removes a surrogate. *)
Lemma full_parse_external_link_encodable (u : Full.ustring) :
  Full.encodable (Full.parse_external_link u) = Full.encodable u.
Proof.
  unfold Full.parse_external_link, Full.protocol_match, Full.protocol_sub.
  destruct u as [|cp u]; [reflexivity|].
  destruct (Full.starts_with (Full.of_string "gs://") (cp :: u)) eqn:E; [|reflexivity].
  cbn iota. apply full_starts_with_cut in E.
  rewrite E at 2. unfold Full.encodable. rewrite !forallb_app.
  reflexivity.
Qed.

Lemma full_reference_lines_cases (items : list (Z * Full.ustring)) :
  (forallb (fun entry => Full.encodable (snd entry)) items = true
   /\ exists lines, Full.reference_lines items = OK lines)
  \/ (forallb (fun entry => Full.encodable (snd entry)) items = false
      /\ Full.reference_lines items = Raise UnicodeEncodeError).
Proof.
  induction items as [|entry items IH]; [left; split; [reflexivity | now eexists]|].
  cbn [forallb Full.reference_lines]. unfold Full.reference_line.
  destruct (full_quote_cases (snd entry) ":/") as [[-> [quoted ->]]|[-> ->]];
    [|now right].
  cbn [andb bind].
  destruct IH as [[-> [lines ->]]|[-> ->]]; [left | right]; cbn [bind].
  - split; [reflexivity | now eexists].
  - now split.
Qed.

(** Where no URI of the list holds a surrogate the formatter returns. *)
Lemma full_format_citations_returns (text : string) (urls : list Full.SourceRef) :
  (forall r, In r urls -> Full.encodable (Full.uri r) = true) ->
  exists out, Full.format_citations text urls = OK out.
Proof.
  intros Hurls. unfold Full.format_citations.
  destruct (full_run_parts_returns text urls) as (st & -> & Hinv). cbn [bind].
  destruct (Full.references st) as [|entry items] eqn:R; [now eexists|].
  destruct (full_reference_lines_cases (entry :: items)) as [[_ [lines ->]]|[Hf _]];
    [cbn [bind]; now eexists|].
  exfalso.
  assert (Ht : forallb (fun e => Full.encodable (snd e)) (entry :: items) = true).
  { apply forallb_forall. intros [k u] Hin. cbn [snd].
    apply Hinv in Hin.
    apply in_map_iff in Hin as (r & <- & Hr).
    rewrite full_parse_external_link_encodable. now apply Hurls. }
  congruence.
Qed.

(** The only exception the formatter lets out is [UnicodeEncodeError]. *)
Lemma full_format_citations_raises (text : string) (urls : list Full.SourceRef) (e : exn) :
  Full.format_citations text urls = Raise e -> e = UnicodeEncodeError.
Proof.
  unfold Full.format_citations.
  destruct (full_run_parts_returns text urls) as (st & -> & _). cbn [bind].
  destruct (Full.references st) as [|entry items]; [discriminate|].
  destruct (full_reference_lines_cases (entry :: items)) as [[_ [lines ->]]|[_ ->]];
    cbn [bind]; [discriminate | now intros [= <-]].
Qed.

(** C9, as the code has it.  [format_citations] returns a string for
    every text, the empty one and any malformed marker included, and
    every list of references, the empty one included, provided no URI of
    the list holds a lone surrogate; and whatever the input, the only
    exception it can raise is the [UnicodeEncodeError] of quoting such a
    URI. *)
Theorem full_format_citations_total :
  (forall text urls,
     (forall r, In r urls -> Full.encodable (Full.uri r) = true) ->
     exists out, Full.format_citations text urls = OK out)
  /\ (forall text urls e,
        Full.format_citations text urls = Raise e -> e = UnicodeEncodeError).
Proof.
  split; [exact full_format_citations_returns | exact full_format_citations_raises].
Qed.

Lemma full_format_citations_total_witness :
  exists out,
    Full.format_citations "See [2], [x] and [1" (of_refs example_refs) = OK out.
Proof.
  destruct full_format_citations_total as [H _].
  apply (H "See [2], [x] and [1" (of_refs example_refs)).
  intros r [<-|[<-|[]]]; reflexivity.
Defined.

(** C9 refuted: a cited reference whose URI holds the lone surrogate
    U+D800 makes [format_citations] raise. *)
Lemma format_citations_raises_on_surrogate :
  Full.format_citations "See [1]."
    [ {| Full.uri := (Full.of_string "https://x/" ++ [55296%N])%list |} ]
  = Raise UnicodeEncodeError
  /\ ~ (exists out,
          Full.format_citations "See [1]."
            [ {| Full.uri := (Full.of_string "https://x/" ++ [55296%N])%list |} ]
          = OK out).
Proof.
  assert (H : Full.format_citations "See [1]."
                [ {| Full.uri := (Full.of_string "https://x/" ++ [55296%N])%list |} ]
              = Raise UnicodeEncodeError) by (vm_compute; reflexivity).
  split; [exact H|]. intros [out Hout]. rewrite H in Hout. discriminate.
Qed.

(** ** The full model: the limit on digits *)

(** Within the limit, [int] reads what the model above reads. *)
Lemma full_int_within_limit (s : string) :
  (Full.digit_count (strip_by int_space s) <= Full.int_max_str_digits)%N ->
  Full.int s = int s.
Proof.
  intros H. unfold Full.int, int.
  destruct (int_signed _); [|reflexivity].
  apply N.ltb_ge in H. now rewrite H.
Qed.

Lemma full_digit_count_digits (digits : string) :
  all_digits digits = true -> Full.digit_count digits = N.of_nat (String.length digits).
Proof.
  unfold all_digits. induction digits as [|a s IH]; [reflexivity|].
  cbn [all_chars Full.digit_count String.length]. intros H.
  apply andb_true_iff in H as [-> Hs]. rewrite (IH Hs). lia.
Qed.

Lemma negative_token_stripped (p : ascii -> bool) (digits : string) :
  p "-"%char = false ->
  (forall a, is_digit a = true -> p a = false) ->
  all_digits digits = true ->
  strip_by p (negative_token digits) = negative_token digits.
Proof.
  intros Hm Hd H. apply strip_by_none. unfold negative_token.
  cbn [all_chars]. rewrite Hm. cbn [negb andb].
  apply (all_chars_impl is_digit); [|exact H].
  intros a Ha. now rewrite (Hd a Ha).
Qed.

(** A minus sign and at most 4300 digits parse, to a number that is no
    index. *)
Lemma full_int_negative_token (urls : list Full.SourceRef) (digits : string) :
  digits <> EmptyString ->
  all_digits digits = true ->
  (N.of_nat (String.length digits) <= Full.int_max_str_digits)%N ->
  exists z, Full.int (strip (negative_token digits)) = OK z
            /\ z <= 0 /\ Full.valid_index urls z = false.
Proof.
  intros Hne Hd Hlen.
  destruct (int_negative_token [] digits Hne Hd) as (z & Hz & Hz0 & _).
  exists z. split; [|split; [exact Hz0|]].
  - rewrite full_int_within_limit; [exact Hz|].
    unfold strip.
    rewrite (negative_token_stripped isspace), (negative_token_stripped int_space);
      try reflexivity; try exact Hd;
      try (intros a Ha; now destruct (is_digit_facts a Ha) as (? & ? & _)).
    unfold negative_token. cbn [Full.digit_count]. change (is_digit "-") with false.
    now rewrite full_digit_count_digits.
  - unfold Full.valid_index. apply andb_false_iff. right.
    rewrite Z.gtb_ltb. apply Z.ltb_ge. lia.
Qed.

Lemma full_cite_all_invalid (urls : list Full.SourceRef) (ref_numbers : list Z) :
  forall acc,
    (forall n, In n ref_numbers -> Full.valid_index urls n = false) ->
    Full.cite_all urls ref_numbers acc = OK acc.
Proof.
  induction ref_numbers as [|n ns IH]; intros acc H; cbn [Full.cite_all]; [reflexivity|].
  assert (E : Full.cite urls n acc = OK acc).
  { unfold Full.cite. destruct acc as [st cits].
    pose proof (H n (or_introl eq_refl)) as V. unfold Full.valid_index in V.
    now rewrite V. }
  rewrite E. cbn [bind]. apply IH. intros m Hm. apply H. now right.
Qed.

Lemma full_process_part_parsed (urls : list Full.SourceRef) (st st' : Full.state)
      (part reference_str tail : string) (l : list string)
      (ref_numbers : list Z) (citation_numbers : list string) :
  split "]" part = reference_str :: tail :: l ->
  Full.parse_marker reference_str = OK ref_numbers ->
  Full.cite_all urls ref_numbers (st, []) = OK (st', citation_numbers) ->
  Full.process_part urls st part
  = OK (Full.add_text st' ("[" ++ match citation_numbers with
                                  | [] => reference_str
                                  | _ :: _ => join ", " citation_numbers
                                  end ++ "]" ++ tail)).
Proof.
  intros S P C. unfold Full.process_part, Full.try_body.
  assert (Hc : contains "]" part = true).
  { destruct (contains "]" part) eqn:E; [reflexivity|].
    rewrite (split_absent _ _ E) in S. discriminate. }
  rewrite Hc, S, index_0. cbn [bind]. rewrite P. cbn [bind]. rewrite C.
  cbn [bind]. rewrite index_1.
  now destruct citation_numbers.
Qed.

(** C10, as the code has it.  A token made of a minus sign and at most
    4300 digits, as in [[-1]], parses as an integer; the integer is not
    positive, so it is an index out of range, skipped without a citation
    number.  A marker made of such tokens parses, and is written back by
    the branch for markers without a valid index: brackets and content
    as they were, then the text up to the next [']'], the table
    untouched.  On ["[-1]"] the output is the input. *)
Theorem full_negative_index_marker_kept :
  (forall urls st tokens rest,
     tokens <> [] ->
     (forall digits, In digits tokens ->
        digits <> EmptyString /\ all_digits digits = true
        /\ (N.of_nat (String.length digits) <= Full.int_max_str_digits)%N) ->
     let reference_str := join "," (map negative_token tokens) in
     exists ref_numbers,
       Full.parse_marker reference_str = OK ref_numbers
       /\ List.length ref_numbers = List.length tokens
       /\ (forall n, In n ref_numbers -> n <= 0 /\ Full.valid_index urls n = false)
       /\ Full.process_part urls st (reference_str ++ "]" ++ rest)
          = OK (Full.add_text st
                  ("[" ++ reference_str ++ "]" ++ hd EmptyString (split "]" rest))))
  /\ Full.int (strip "-1") = OK (-1)
  /\ (forall urls, Full.format_citations "[-1]" urls = OK "[-1]").
Proof.
  split; [|split; [reflexivity|]]; cycle 1.
  { intros urls.
    assert (P : Full.process_part urls (Full.initial_state "") "-1]"
                = OK (Full.add_text (Full.initial_state "") "[-1]")).
    { apply (full_process_part_parsed urls _ _ "-1]" "-1" "" [] [-1] []); try reflexivity.
      apply full_cite_all_invalid. intros n [<-|[]].
      unfold Full.valid_index. apply andb_false_iff. now right. }
    unfold Full.format_citations, Full.run_parts.
    change (split "[" "[-1]") with [""; "-1]"].
    rewrite index_0. cbn [bind tl Full.process_parts]. now rewrite P. }
  intros urls st tokens rest Hne Htok. cbn zeta.
  set (reference_str := join "," (map negative_token tokens)).
  assert (Hcomma : forall x, In x (map negative_token tokens) -> contains "," x = false).
  { intros x Hx. apply in_map_iff in Hx as (d & <- & Hd).
    apply negative_token_absent; [reflexivity | | now apply Htok].
    intros a Ha. now destruct (is_digit_facts a Ha) as (_ & _ & -> & _). }
  assert (Hbr : contains "]" reference_str = false).
  { apply contains_join; [reflexivity|].
    intros x Hx. apply in_map_iff in Hx as (d & <- & Hd).
    apply negative_token_absent; [reflexivity | | now apply Htok].
    intros a Ha. now destruct (is_digit_facts a Ha) as (_ & _ & _ & -> & _). }
  assert (Hsplit : split "," reference_str = map negative_token tokens).
  { apply split_join; [|exact Hcomma]. now destruct tokens. }
  destruct (comprehension_all (fun ref => Full.int (strip ref))
              (fun z => z <= 0 /\ Full.valid_index urls z = false)
              (map negative_token tokens))
    as (ref_numbers & P & Hall & Hlen).
  { intros x Hx. apply in_map_iff in Hx as (d & <- & Hd).
    destruct (Htok d Hd) as (Hd1 & Hd2 & Hd3).
    destruct (full_int_negative_token urls d Hd1 Hd2 Hd3) as (z & Hz & Hz').
    now exists z. }
  rewrite <- Hsplit in P. fold (Full.parse_marker reference_str) in P.
  exists ref_numbers. split; [exact P|].
  split; [now rewrite Hlen, length_map|]. split; [exact Hall|].
  assert (C : Full.cite_all urls ref_numbers (st, []) = OK (st, [])).
  { apply full_cite_all_invalid. intros n Hn. now apply Hall. }
  exact (full_process_part_parsed _ _ _ _ _ _ _ _ _ (split_marker _ rest Hbr) P C).
Qed.

Lemma full_negative_index_marker_kept_witness :
  exists ref_numbers,
    Full.parse_marker "-1,-20" = OK ref_numbers
    /\ List.length ref_numbers = 2%nat
    /\ (forall n, In n ref_numbers ->
          n <= 0 /\ Full.valid_index (of_refs example_refs) n = false)
    /\ Full.process_part (of_refs example_refs) (Full.initial_state "x")
         ("-1,-20" ++ "]" ++ " y] z")
       = OK (Full.add_text (Full.initial_state "x") "[-1,-20] y").
Proof.
  destruct full_negative_index_marker_kept as (H & _ & _).
  apply (H (of_refs example_refs) (Full.initial_state "x") ["1"; "20"] " y] z").
  - discriminate.
  - intros d [<-|[<-|[]]]; (split; [discriminate | split; [reflexivity | vm_compute; discriminate]]).
Defined.

(** C10 refuted: a minus sign and 4301 digits do not parse.  [int]
    raises [ValueError], so the marker takes the branch for brackets
    that hold no integers: the segment is copied whole, the text behind
    its second [']'] included, which the branch for markers without a
    valid index does not write. *)
Lemma negative_token_over_limit_fails :
  ~ (exists z, Full.int (strip (negative_token (Full.nines 4301))) = OK z)
  /\ Full.parse_marker (negative_token (Full.nines 4301)) = Raise ValueError
  /\ Full.process_part [] (Full.initial_state "")
       (negative_token (Full.nines 4301) ++ "] a] b")
     = OK (Full.add_text (Full.initial_state "")
             ("[" ++ negative_token (Full.nines 4301) ++ "] a] b")).
Proof.
  assert (H : Full.int (strip (negative_token (Full.nines 4301))) = Raise ValueError)
    by (vm_compute; reflexivity).
  split; [|split; vm_compute; reflexivity].
  intros [z Hz]. rewrite H in Hz. discriminate.
Qed.

(** ** The full model: the answer to a message *)

Lemma full_on_message_reaches_search
      (exception_text : exn -> string) (sid : nat) (query : string)
      (created : outcome string) (reply : outcome Full.Reply) (w : world) :
  truthy (user_session w sid) = true
  \/ truthy (GLOBAL_CONVERSATION_NAME w) = true
  \/ (exists conversation, created = Returned conversation) ->
  exists conversation w1,
    Full.on_message exception_text sid query created reply w
    = Full.answer exception_text sid query conversation reply w1
    /\ sent w1 = sent w.
Proof.
  intros H. unfold Full.on_message.
  destruct (user_session w sid) as [[|a s]|] eqn:Es; cbn [truthy negb];
    try (now exists (String a s), w);
    (destruct (GLOBAL_CONVERSATION_NAME w) as [[|b t]|] eqn:Eg;
     try (now exists (String b t), w);
     destruct H as [H|[H|[conversation ->]]]; try discriminate H;
     eexists; eexists; split; reflexivity).
Qed.

(** X17. The answer to a message, when a conversation is at hand or can
    be created.  A reply of the service with citation metadata goes
    through [format_citations]: what it returns is sent as one message
    with the button for a new conversation, and it does return when no
    URI of the references holds a lone surrogate; when it raises, which
    it does with [UnicodeEncodeError] only, the outer handler sends the
    error ["Search failed: ..."] with the text of the exception.  A
    reply without citation metadata is sent with the summary as it is,
    and a failure of the service as the error ["Search failed: ..."]. *)
Theorem full_on_message_answer
        (exception_text : exn -> string) (sid : nat) (query : string)
        (created : outcome string) (reply : outcome Full.Reply) (w : world) :
  truthy (user_session w sid) = true
  \/ truthy (GLOBAL_CONVERSATION_NAME w) = true
  \/ (exists conversation, created = Returned conversation) ->
  let w' := Full.on_message exception_text sid query created reply w in
  match reply with
  | Returned response =>
      match Full.summary_references response with
      | Some refs =>
          (forall text,
             Full.format_citations (Full.summary_text response) refs = OK text ->
             sent w' = (sent w ++ [(sid, {| content := text; type := DefaultMessage;
                                           actions := [new_conversation_action] |})])%list)
          /\ (forall e,
                Full.format_citations (Full.summary_text response) refs = Raise e ->
                e = UnicodeEncodeError
                /\ sent w' = (sent w ++ [(sid, error_message
                                                 ("Search failed: " ++ exception_text e))])%list)
          /\ ((forall r, In r refs -> Full.encodable (Full.uri r) = true) ->
              exists text,
                Full.format_citations (Full.summary_text response) refs = OK text)
      | None =>
          sent w' = (sent w ++ [(sid, {| content := Full.summary_text response;
                                        type := DefaultMessage;
                                        actions := [new_conversation_action] |})])%list
      end
  | Failed e =>
      sent w' = (sent w ++ [(sid, error_message ("Search failed: " ++ e))])%list
  end.
Proof.
  intros H. cbn zeta.
  destruct (full_on_message_reaches_search exception_text sid query created reply w H)
    as (conversation & w1 & -> & <-).
  unfold Full.answer. destruct reply as [response|e]; [|reflexivity].
  destruct (Full.summary_references response) as [refs|]; [|reflexivity].
  split; [|split].
  - intros text ->. reflexivity.
  - intros e He. split; [now apply full_format_citations_raises in He|].
    rewrite He. reflexivity.
  - apply full_format_citations_returns.
Qed.

Lemma full_on_message_answer_witness :
  sent (Full.on_message (fun _ => "surrogates not allowed") 0 "q" (Returned "c1")
          (Returned {| Full.summary_text := "Revenue grew [1].";
                       Full.summary_references :=
                         Some [ {| Full.uri := [55296%N] |} ] |})
          initial_world)
  = [(0%nat, error_message "Search failed: surrogates not allowed")]
  /\ exists text,
       Full.format_citations "Revenue grew [1]." (of_refs example_refs) = OK text
       /\ sent (Full.on_message (fun _ => "") 0 "q" (Returned "c1")
                  (Returned {| Full.summary_text := "Revenue grew [1].";
                               Full.summary_references := Some (of_refs example_refs) |})
                  initial_world)
          = [(0%nat, {| content := text; type := DefaultMessage;
                        actions := [new_conversation_action] |})].
Proof.
  split.
  - destruct (full_on_message_answer (fun _ => "surrogates not allowed") 0 "q"
                (Returned "c1")
                (Returned {| Full.summary_text := "Revenue grew [1].";
                             Full.summary_references :=
                               Some [ {| Full.uri := [55296%N] |} ] |})
                initial_world) as (_ & Hraise & _).
    + right. right. now exists "c1".
    + apply (Hraise UnicodeEncodeError). vm_compute. reflexivity.
  - destruct (full_on_message_answer (fun _ => "") 0 "q" (Returned "c1")
                (Returned {| Full.summary_text := "Revenue grew [1].";
                             Full.summary_references := Some (of_refs example_refs) |})
                initial_world) as (Hok & _ & Hret).
    + right. right. now exists "c1".
    + destruct Hret as [text Ht]; [intros r [<-|[<-|[]]]; reflexivity|].
      exists text. split; [exact Ht | now apply Hok].
Defined.

(** ** A text that cites nothing, and is cut *)

(** C6, on the code: with an empty table no list of references is
    appended, but the output is not the input passed through.  On
    ["[9] a] b"] with one reference no index is valid and the table ends
    empty, and the output stops after ["[9] a"]: the segment is written
    up to its second [']'] only, as under C1. *)
Theorem uncited_text_is_cut :
  exists st,
    run_parts "[9] a] b" [ {| uri := "https://x" |} ] = OK st
    /\ references st = []
    /\ format_citations "[9] a] b" [ {| uri := "https://x" |} ] = OK "[9] a"
    /\ "[9] a" <> "[9] a] b".
Proof.
  eexists. split; [vm_compute; reflexivity|].
  split; [reflexivity|]. split; [reflexivity | discriminate].
Qed.

(** ** The two models agree *)

Lemma of_string_app (s t : string) :
  Full.of_string (s ++ t) = (Full.of_string s ++ Full.of_string t)%list.
Proof.
  unfold Full.of_string. induction s as [|a s IH]; [reflexivity|].
  cbn [append list_ascii_of_string map app]. now rewrite IH.
Qed.

Lemma N_of_ascii_eqb (a b : ascii) : (N_of_ascii a =? N_of_ascii b)%N = Ascii.eqb a b.
Proof.
  destruct (Ascii.eqb_spec a b) as [->|Hne]; [apply N.eqb_refl|].
  apply N.eqb_neq. intros H. apply Hne.
  now rewrite <- (ascii_N_embedding a), <- (ascii_N_embedding b), H.
Qed.

Lemma ustring_eqb_of_string (s t : string) :
  Full.ustring_eqb (Full.of_string s) (Full.of_string t) = String.eqb s t.
Proof.
  unfold Full.of_string. revert t.
  induction s as [|a s IH]; intros [|b t]; try reflexivity.
  cbn [list_ascii_of_string map Full.ustring_eqb String.eqb].
  rewrite N_of_ascii_eqb, IH. now destruct (Ascii.eqb a b).
Qed.

Lemma starts_with_of_string (p s : string) :
  Full.starts_with (Full.of_string p) (Full.of_string s) = String.prefix p s.
Proof.
  unfold Full.of_string. revert s.
  induction p as [|a p IH]; intros [|b s]; try reflexivity.
  cbn [list_ascii_of_string map Full.starts_with String.prefix].
  rewrite N_of_ascii_eqb, IH.
  destruct (Ascii.eqb_spec a b) as [->|Hne];
    destruct (ascii_dec _ _); try reflexivity; contradiction.
Qed.

Lemma length_of_string (s : string) :
  List.length (Full.of_string s) = String.length s.
Proof.
  unfold Full.of_string. induction s as [|a s IH]; [reflexivity|].
  cbn. now rewrite IH.
Qed.

(** Normalizing reads the same in both models. *)
Lemma parse_external_link_of_string (s : string) :
  Full.parse_external_link (Full.of_string s) = Full.of_string (parse_external_link s).
Proof.
  destruct (String.prefix "gs://" s) eqn:E.
  - destruct (prefix_cut _ _ E) as [rest ->].
    rewrite parse_external_link_gs, !of_string_app. reflexivity.
  - unfold Full.parse_external_link, Full.protocol_match, Full.protocol_sub.
    rewrite (parse_external_link_other s E).
    destruct s as [|a s]; [reflexivity|].
    change (Full.of_string (String a s))
      with (N_of_ascii a :: Full.of_string s) at 1.
    cbn iota.
    change (N_of_ascii a :: Full.of_string s) with (Full.of_string (String a s)).
    now rewrite starts_with_of_string, E.
Qed.

Lemma utf8_of_string (s : string) : Full.utf8 (Full.of_string s) = OK (utf8 s).
Proof.
  unfold Full.of_string. induction s as [|a s IH]; [reflexivity|].
  cbn [list_ascii_of_string map Full.utf8 utf8]. rewrite IH.
  assert (E : Full.utf8_code_point (N_of_ascii a) = OK (utf8_char a)).
  { unfold Full.utf8_code_point, utf8_char, code.
    destruct (N_of_ascii a <? 128)%N; [reflexivity|].
    assert (H : (N_of_ascii a < 256)%N) by apply N_ascii_bounded.
    assert (H' : (N_of_ascii a <? 2048)%N = true) by (apply N.ltb_lt; lia).
    now rewrite H'. }
  rewrite E. reflexivity.
Qed.

(** Quoting reads the same in both models, and does not raise. *)
Lemma quote_of_string (s safe : string) :
  Full.quote (Full.of_string s) safe = OK (quote s safe).
Proof. unfold Full.quote, quote. now rewrite utf8_of_string. Qed.

Lemma in_values_of_entry (u : string) (refs : list (Z * string)) :
  Full.in_values (Full.of_string u) (map of_entry refs) = in_values u refs.
Proof.
  unfold Full.in_values, in_values. induction refs as [|[k v] refs IH]; [reflexivity|].
  cbn [map existsb of_entry fst snd]. now rewrite ustring_eqb_of_string, IH.
Qed.

Lemma find_ref_id_of_entry (u : string) (refs : list (Z * string)) :
  Full.find_ref_id (Full.of_string u) (map of_entry refs) = find_ref_id u refs.
Proof.
  induction refs as [|[k v] refs IH]; [reflexivity|].
  cbn [map Full.find_ref_id find_ref_id of_entry fst snd].
  rewrite ustring_eqb_of_string, IH. reflexivity.
Qed.

Lemma dict_set_of_entry (k : Z) (v : string) (refs : list (Z * string)) :
  Full.dict_set k (Full.of_string v) (map of_entry refs) = map of_entry (dict_set k v refs).
Proof.
  induction refs as [|[k' v'] refs IH]; [reflexivity|].
  cbn [map Full.dict_set dict_set of_entry fst snd].
  destruct (k' =? k); [reflexivity|]. cbn [map of_entry fst snd]. now rewrite IH.
Qed.

Lemma index_map {A B : Type} (f : A -> B) (l : list A) (i : Z) :
  index (map f l) i = result_map f (index l i).
Proof.
  unfold index, len. rewrite length_map.
  destruct (_ <? 0); [reflexivity|].
  rewrite nth_error_map. now destruct (nth_error l _).
Qed.

Lemma len_of_refs (urls : list SourceRef) : len (of_refs urls) = len urls.
Proof. unfold len, of_refs. now rewrite length_map. Qed.

Lemma cite_agrees (urls : list SourceRef) (ref_num : Z) (acc : state * list string) :
  Full.cite (of_refs urls) ref_num (of_acc acc) = result_map of_acc (cite urls ref_num acc).
Proof.
  destruct acc as [st cits]. unfold Full.cite, cite, of_acc. cbn [fst snd].
  rewrite len_of_refs.
  destruct ((ref_num <=? len urls) && (ref_num >? 0)); [|reflexivity].
  unfold of_refs. rewrite index_map.
  destruct (index urls (ref_num - 1)) as [r|e]; [|reflexivity].
  cbn [result_map bind Full.uri of_state Full.references Full.reference_counter
       Full.formatted_text].
  rewrite parse_external_link_of_string, in_values_of_entry.
  destruct (in_values _ (references st)); cbn [negb].
  - rewrite find_ref_id_of_entry. reflexivity.
  - rewrite dict_set_of_entry. reflexivity.
Qed.

Lemma cite_all_agrees (urls : list SourceRef) (ref_numbers : list Z) :
  forall acc,
    Full.cite_all (of_refs urls) ref_numbers (of_acc acc)
    = result_map of_acc (cite_all urls ref_numbers acc).
Proof.
  induction ref_numbers as [|n ns IH]; intros acc; [reflexivity|].
  cbn [Full.cite_all cite_all]. rewrite cite_agrees.
  destruct (cite urls n acc) as [acc'|e]; [|reflexivity].
  cbn [result_map bind]. apply IH.
Qed.

Lemma comprehension_ext {A B : Type} (f g : A -> result B) (l : list A) :
  (forall x, In x l -> f x = g x) -> comprehension f l = comprehension g l.
Proof.
  induction l as [|x l IH]; intros H; [reflexivity|].
  cbn [comprehension]. rewrite (H x) by now left.
  rewrite IH; [reflexivity|]. intros y Hy. apply H. now right.
Qed.

Lemma parse_marker_agrees (reference_str : string) :
  tokens_within_limit reference_str ->
  Full.parse_marker reference_str = parse_marker reference_str.
Proof.
  intros H. unfold Full.parse_marker, parse_marker.
  apply comprehension_ext. intros token Hin.
  apply full_int_within_limit. now apply H.
Qed.

Lemma process_part_agrees (urls : list SourceRef) (st : state) (part : string) :
  (contains "]" part = true -> tokens_within_limit (hd EmptyString (split "]" part))) ->
  Full.process_part (of_refs urls) (of_state st) part
  = result_map of_state (process_part urls st part).
Proof.
  intros H. unfold Full.process_part, process_part, Full.try_body, try_body.
  destruct (contains "]" part) eqn:C; [|reflexivity].
  specialize (H eq_refl).
  destruct (split_contains _ _ C) as (a & b & l & S). rewrite S in *.
  cbn [hd] in H. rewrite index_0. cbn [bind].
  rewrite (parse_marker_agrees a H).
  destruct (parse_marker a) as [nums|e] eqn:P; cbn [bind].
  - change (of_state st, @nil string) with (of_acc (st, [])).
    rewrite cite_all_agrees.
    destruct (cite_all urls nums (st, [])) as [[st' cits]|e]; [|now destruct e].
    cbn [result_map bind of_acc fst snd]. rewrite index_1.
    now destruct cits.
  - apply parse_marker_raises in P. subst e. reflexivity.
Qed.

Lemma process_parts_agrees (urls : list SourceRef) (parts : list string) :
  (forall part, In part parts -> contains "]" part = true ->
     tokens_within_limit (hd EmptyString (split "]" part))) ->
  forall st,
    Full.process_parts (of_refs urls) (of_state st) parts
    = result_map of_state (process_parts urls st parts).
Proof.
  induction parts as [|p ps IH]; intros H st; [reflexivity|].
  cbn [Full.process_parts process_parts].
  rewrite process_part_agrees by (apply H; now left).
  destruct (process_part urls st p) as [st'|e]; [|reflexivity].
  cbn [result_map bind]. apply IH. intros part Hin. apply H. now right.
Qed.

Lemma reference_lines_agrees (refs : list (Z * string)) :
  Full.reference_lines (map of_entry refs) = OK (reference_lines refs).
Proof.
  induction refs as [|[k u] refs IH]; [reflexivity|].
  cbn [map Full.reference_lines reference_lines]. rewrite IH.
  unfold Full.reference_line, reference_line, of_entry. cbn [fst snd].
  rewrite quote_of_string. reflexivity.
Qed.

(** Where no token of a marker exceeds the limit on digits, the full
    model gives, on URIs of code points below 256, what the model above
    gives: its theorems hold of [Full.format_citations] there. *)
Theorem full_format_citations_agrees (text : string) (urls : list SourceRef) :
  (forall part, In part (tl (split "[" text)) -> contains "]" part = true ->
     tokens_within_limit (hd EmptyString (split "]" part))) ->
  Full.format_citations text (of_refs urls) = format_citations text urls.
Proof.
  intros H. unfold Full.format_citations, format_citations, Full.run_parts, run_parts.
  destruct (split "[" text) as [|first rest] eqn:E; [now apply split_not_nil in E|].
  rewrite index_0. cbn [bind tl] in *.
  change (Full.initial_state first) with (of_state (initial_state first)).
  rewrite (process_parts_agrees urls rest H).
  destruct (process_parts urls (initial_state first) rest) as [st|e]; [|reflexivity].
  cbn [result_map bind of_state Full.references Full.formatted_text].
  destruct (references st) as [|entry items]; [reflexivity|].
  change (of_entry entry :: map of_entry items) with (map of_entry (entry :: items)).
  cbn iota. rewrite reference_lines_agrees. reflexivity.
Qed.

Lemma full_format_citations_agrees_witness :
  Full.format_citations "Revenue grew [1]. See also [2,1]." (of_refs example_refs)
  = format_citations "Revenue grew [1]. See also [2,1]." example_refs.
Proof.
  apply full_format_citations_agrees.
  intros part Hpart _ token Hin.
  destruct Hpart as [<-|[<-|[]]]; cbn in Hin;
    repeat (destruct Hin as [<-|Hin]); try contradiction;
    vm_compute; discriminate.
Defined.
